(** * launch_codex_agents.py: a phase/job orchestrator

    Shallow embedding of [scripts/launch_codex_agents.py] and the
    verification of its specification.

    Conventions of the embedding:
    - a Python [str] is a list of Unicode code points ([list N]), a
      [bytes] value is a list of [Byte.byte];
    - a Python [int] is a [Z];
    - an exception is a value of [exn]; code that may raise returns a
      [result];
    - code with effects (file system, console, the schedule of the job
      threads) is a function on an explicit [state], in the monad [M];
    - everything the script takes from its environment (the clock, the
      external command, the disk, the thread scheduler) is read from an
      explicit world record. *)

From Stdlib Require Import Strings.Byte Ascii String Decimal DecimalZ DecimalN.
From stdpp Require Import gmap list numbers.

Local Open Scope N_scope.

(** ** Text *)

Abbreviation text := (list N).
Abbreviation bytes := (list byte).

(** A string literal of the source. *)
Definition lit (s : string) : text := N_of_ascii <$> list_ascii_of_string s.
Arguments lit : simpl never.

Definition LF : N := 10.
Definition UNDERSCORE : N := 95.
Definition SLASH : N := 47.
Definition MINUS : N := 45.
Definition ZERO : N := 48.

(** [sep.join(l)] *)
Fixpoint join (sep : text) (l : list text) : text :=
  match l with
  | [] => []
  | [x] => x
  | x :: r => x ++ sep ++ join sep r
  end.

(** [s.split(c)] for a one-character separator. *)
Fixpoint split_on (c : N) (s : text) : list text :=
  match s with
  | [] => [[]]
  | x :: r =>
      if x =? c then [] :: split_on c r
      else match split_on c r with
           | h :: t => (x :: h) :: t
           | [] => [[x]]
           end
  end.

(** [str.isspace] on one code point: the code points CPython's
    [_PyUnicode_IsWhitespace] accepts. *)
Definition isspace (c : N) : bool :=
  ((9 <=? c) && (c <=? 13)) || ((28 <=? c) && (c <=? 32))
  || (c =? 133) || (c =? 160) || (c =? 5760)
  || ((8192 <=? c) && (c <=? 8202))
  || (c =? 8232) || (c =? 8233) || (c =? 8239) || (c =? 8287) || (c =? 12288).

Fixpoint lstrip (s : text) : text :=
  match s with
  | [] => []
  | c :: r => if isspace c then lstrip r else s
  end.

Definition rstrip (s : text) : text := reverse (lstrip (reverse s)).

(** [s.strip()] *)
Definition strip (s : text) : text := rstrip (lstrip s).

(** ** Decimal formatting of integers *)

Fixpoint uint_text (d : uint) : text :=
  match d with
  | Nil => []
  | D0 d => 48 :: uint_text d
  | D1 d => 49 :: uint_text d
  | D2 d => 50 :: uint_text d
  | D3 d => 51 :: uint_text d
  | D4 d => 52 :: uint_text d
  | D5 d => 53 :: uint_text d
  | D6 d => 54 :: uint_text d
  | D7 d => 55 :: uint_text d
  | D8 d => 56 :: uint_text d
  | D9 d => 57 :: uint_text d
  end.

(** The decimal digits of a natural number, ["0"] for zero. *)
Definition digits (n : N) : text := uint_text (N.to_uint n).

(** [str(z)], also [f"{z}"], for a Python [int]. *)
Definition str_int (z : Z) : text :=
  if (z <? 0)%Z then MINUS :: digits (Z.abs_N z) else digits (Z.abs_N z).

(** [s.zfill(w)] on a digit string: zeros on the left up to width [w]. *)
Definition zfill (w : nat) (s : text) : text :=
  replicate (w - length s)%nat ZERO ++ s.

(** [f"{z:02d}"] and the like: sign-aware zero padding to width [w]. *)
Definition fmt_0d (w : nat) (z : Z) : text :=
  if (z <? 0)%Z then MINUS :: zfill (w - 1) (digits (Z.abs_N z))
  else zfill w (digits (Z.abs_N z)).

(** ** Exceptions and results *)

Inductive exn :=
| ValueError                                   (* ThreadPoolExecutor(max_workers=0) *)
| StartError                                   (* OSError of subprocess.run: the command cannot be started *)
| TimeoutExpired (out err : option bytes)      (* subprocess.TimeoutExpired, with the drained output *)
| UnicodeDecodeError
| WriteError                                   (* OSError of Path.write_text *)
| MkdirError.                                  (* OSError of Path.mkdir *)

Inductive result (A : Type) :=
| Ok (a : A)
| Raise (e : exn).
Arguments Ok {A} a.
Arguments Raise {A} e.

Definition rbind {A B} (r : result A) (k : A → result B) : result B :=
  match r with
  | Ok a => k a
  | Raise e => Raise e
  end.

Definition rmap {A B} (f : A → B) (r : result A) : result B :=
  rbind r (λ a, Ok (f a)).

Definition is_ok {A} (r : result A) : bool :=
  match r with Ok _ => true | Raise _ => false end.

Global Instance result_ret : MRet result := @Ok.
Global Instance result_bind : MBind result := λ A B k r, rbind r k.
Global Instance result_fmap : FMap result := λ A B f r, rmap f r.

(** ** [bytes.decode("utf-8", errors=...)]

    The decoder of CPython.  A malformed sequence is reported to the
    error handler with the span CPython gives it: one byte for an invalid
    start byte, the bytes read so far for an invalid continuation byte,
    and everything up to the end of the input for a truncated sequence.
    The handler [Strict] raises; the handler [Replace] emits one U+FFFD
    and resumes after the span. *)

Inductive handler := Strict | Replace.

Definition REPLACEMENT : N := 0xFFFD.

Definition on_error (errors : handler) (resume : result text) : result text :=
  match errors with
  | Strict => Raise UnicodeDecodeError
  | Replace => rmap (cons REPLACEMENT) resume
  end.

Definition is_cont (b : byte) : bool :=
  (0x80 <=? to_N b) && (to_N b <? 0xC0).

Definition cont_bits (b : byte) : N := N.land (to_N b) 0x3F.

(** The second byte of a three-byte sequence: [E0] excludes the overlong
    forms and [ED] the surrogates. *)
Definition second3_ok (ch : N) (b : byte) : bool :=
  is_cont b
  && negb ((ch =? 0xE0) && (to_N b <? 0xA0))
  && negb ((ch =? 0xED) && (0xA0 <=? to_N b)).

(** The second byte of a four-byte sequence: [F0] excludes the overlong
    forms and [F4] what lies beyond U+10FFFF. *)
Definition second4_ok (ch : N) (b : byte) : bool :=
  is_cont b
  && negb ((ch =? 0xF0) && (to_N b <? 0x90))
  && negb ((ch =? 0xF4) && (0x90 <=? to_N b)).

Fixpoint utf8_decode (errors : handler) (s : bytes) : result text :=
  match s with
  | [] => Ok []
  | b0 :: s1 =>
      let ch := to_N b0 in
      if ch <? 0x80 then rmap (cons ch) (utf8_decode errors s1)
      else if ch <? 0xC2 then on_error errors (utf8_decode errors s1)
      else if ch <? 0xE0 then
        match s1 with
        | [] => on_error errors (Ok [])
        | b1 :: s2 =>
            if is_cont b1 then
              rmap (cons (N.lor (N.shiftl (N.land ch 0x1F) 6) (cont_bits b1)))
                   (utf8_decode errors s2)
            else on_error errors (utf8_decode errors s1)
        end
      else if ch <? 0xF0 then
        match s1 with
        | [] => on_error errors (Ok [])
        | b1 :: s2 =>
            if second3_ok ch b1 then
              match s2 with
              | [] => on_error errors (Ok [])
              | b2 :: s3 =>
                  if is_cont b2 then
                    rmap (cons (N.lor (N.shiftl (N.land ch 0x0F) 12)
                                  (N.lor (N.shiftl (cont_bits b1) 6) (cont_bits b2))))
                         (utf8_decode errors s3)
                  else on_error errors (utf8_decode errors s2)
              end
            else on_error errors (utf8_decode errors s1)
        end
      else if ch <? 0xF5 then
        match s1 with
        | [] => on_error errors (Ok [])
        | b1 :: s2 =>
            if second4_ok ch b1 then
              match s2 with
              | [] => on_error errors (Ok [])
              | b2 :: s3 =>
                  if is_cont b2 then
                    match s3 with
                    | [] => on_error errors (Ok [])
                    | b3 :: s4 =>
                        if is_cont b3 then
                          rmap (cons (N.lor (N.shiftl (N.land ch 0x07) 18)
                                        (N.lor (N.shiftl (cont_bits b1) 12)
                                           (N.lor (N.shiftl (cont_bits b2) 6) (cont_bits b3)))))
                               (utf8_decode errors s4)
                        else on_error errors (utf8_decode errors s3)
                    end
                  else on_error errors (utf8_decode errors s2)
              end
            else on_error errors (utf8_decode errors s1)
        end
      else on_error errors (utf8_decode errors s1)
  end.

(** [(b or b'').decode("utf-8", errors="replace")]: the bytes, empty
    when there are none, decoded with the handler [replace]. *)
Definition decode_captured (b : option bytes) : result text :=
  utf8_decode Replace (default [] b).

(** ** The clock: [datetime.datetime.now().strftime("%Y%m%d_%H%M%S")] *)

Record datetime := {
  year : N; month : N; day : N;
  hour : N; minute : N; second : N
}.

(** A field of [strftime]: decimal, zero-padded to its width. *)
Definition field (w : nat) (n : N) : text := zfill w (digits n).

Definition strftime_stamp (t : datetime) : text :=
  field 4 (year t) ++ field 2 (month t) ++ field 2 (day t)
  ++ lit "_" ++ field 2 (hour t) ++ field 2 (minute t) ++ field 2 (second t).

(** ** Paths: [pathlib.Path], POSIX flavour

    A path is its root flag and its components.  Parsing a string splits
    it at the separator and drops the empty components and the
    components ["."]; joining with an absolute right operand gives the
    right operand. *)

Record Path := { absolute : bool; parts : list text }.

Definition is_component (c : text) : bool :=
  negb (bool_decide (c = [])) && negb (bool_decide (c = lit ".")).

Definition parse_path (s : text) : Path :=
  {| absolute := bool_decide (head s = Some SLASH);
     parts := filter (λ c, is_component c = true) (split_on SLASH s) |}.

(** [p / s] *)
Definition joinpath (p : Path) (s : text) : Path :=
  let q := parse_path s in
  if absolute q then q
  else {| absolute := absolute p; parts := parts p ++ parts q |}.

(** [str(p)] *)
Definition str_path (p : Path) : text :=
  match absolute p, parts p with
  | false, [] => lit "."
  | a, ps => (if a then lit "/" else []) ++ join (lit "/") ps
  end.

(** ** The external process: [subprocess.run]

    What one launch of the external command does is given by the world:
    whether the operating system can start it, after how many time units
    it exits by itself, its return code and output, and the output that
    has been buffered when it is killed at the deadline. *)

Record process := {
  p_starts : bool;
  p_runtime : option N;
  p_returncode : Z;
  p_stdout : option bytes;
  p_stderr : option bytes;
  p_partial_stdout : option bytes;
  p_partial_stderr : option bytes
}.

Record CompletedProcess := {
  returncode : Z;
  stdout_of : option bytes;
  stderr_of : option bytes
}.

(** [subprocess.run(cmd, capture_output=True, timeout=timeout, check=False)] *)
Definition subprocess_run (p : process) (timeout : N) : result CompletedProcess :=
  if p_starts p then
    match p_runtime p with
    | Some d =>
        if d <=? timeout then
          Ok {| returncode := p_returncode p;
                stdout_of := p_stdout p; stderr_of := p_stderr p |}
        else Raise (TimeoutExpired (p_partial_stdout p) (p_partial_stderr p))
    | None => Raise (TimeoutExpired (p_partial_stdout p) (p_partial_stderr p))
    end
  else Raise StartError.

(** ** State and effects *)

Inductive event :=
| EvStart (phase : text) (idx : Z)      (* a job thread enters run_agent *)
| EvEnd (phase : text) (idx : Z).       (* its call of run_agent is over *)

Record state := {
  fs : gmap text text;          (* the files, by path *)
  console : list text;          (* the lines printed *)
  trace : list event            (* the history of the job threads *)
}.

Definition M (A : Type) : Type := state → state * result A.

Definition ret {A} (a : A) : M A := λ st, (st, Ok a).

Definition bind {A B} (m : M A) (k : A → M B) : M B :=
  λ st, match m st with
        | (st', Ok a) => k a st'
        | (st', Raise e) => (st', Raise e)
        end.

Definition lift {A} (r : result A) : M A := λ st, (st, r).

Global Instance M_ret : MRet M := @ret.
Global Instance M_bind : MBind M := λ A B k m, bind m k.

(** [print(line)] *)
Definition print (line : text) : M unit :=
  λ st, ({| fs := fs st; console := console st ++ [line]; trace := trace st |}, Ok tt).

Definition emit (e : event) : M unit :=
  λ st, ({| fs := fs st; console := console st; trace := trace st ++ [e] |}, Ok tt).

(** [path.write_text(data, encoding="utf-8")]; [disk_ok] tells whether
    the file system accepts the write. *)
Definition write_text (disk_ok : bool) (path : Path) (data : text) : M unit :=
  λ st, if disk_ok
        then ({| fs := <[str_path path := data]> (fs st);
                 console := console st; trace := trace st |}, Ok tt)
        else (st, Raise WriteError).

(** [path.mkdir(parents=True, exist_ok=True)] *)
Definition mkdir (mkdir_ok : bool) (path : Path) : M unit :=
  λ st, (st, if mkdir_ok then Ok tt else Raise MkdirError).

(** What one job finds in its environment. *)
Record job_world := {
  now : datetime;                              (* the clock when the job starts *)
  os_exec : list text → text → process;        (* the command line and the working directory *)
  disk_ok : bool                               (* whether its artifact can be written *)
}.

(** *** The job threads of a phase

    The pool has one worker per job, so every submitted job runs in a
    thread of its own.  A job thread takes two steps: it enters
    [run_agent], and its call of [run_agent] is over.  The scheduler is a
    list of job positions: each entry lets that job take its next step,
    an entry for a job that is over (or for no job) does nothing, and
    when the list is used up the jobs still at work are run to their end
    in the order of their positions.  Every interleaving of the job
    threads is the play of some list. *)

Inductive jstate := Pending | Running | Finished.

Inductive mark :=
| MStart (i : nat)
| MEnd (i : nat).

Fixpoint flush (i : nat) (js : list jstate) : list mark :=
  match js with
  | [] => []
  | Pending :: r => MStart i :: MEnd i :: flush (S i) r
  | Running :: r => MEnd i :: flush (S i) r
  | Finished :: r => flush (S i) r
  end.

Fixpoint play (sched : list nat) (js : list jstate) : list mark :=
  match sched with
  | [] => flush 0 js
  | i :: sched' =>
      match js !! i with
      | Some Pending => MStart i :: play sched' (<[i := Running]> js)
      | Some Running => MEnd i :: play sched' (<[i := Finished]> js)
      | _ => play sched' js
      end
  end.

(** What a phase finds in its environment: the world of each job, by
    position, and the scheduler. *)
Record phase_world := {
  pw_job : nat → job_world;
  pw_sched : list nat
}.

(** What a run finds: whether the output directory can be made, and the
    world of each phase, by position. *)
Record run_world := {
  rw_mkdir : bool;
  rw_phase : nat → phase_world
}.

(** The outcome a future holds: the value returned or the exception
    raised by the call it ran. *)
Definition attempt {A} (m : M A) : M (result A) :=
  λ st, let '(st', r) := m st in (st', Ok r).

Definition QUOTE : N := 34.
Definition FENCE : text := lit "```".
Definition TIMEOUT_STATUS : Z := 124.

Section Script.

(** [ROOT = Path(__file__).resolve().parents[1]] depends on where the
    script is installed. *)
Variable ROOT : Path.

Definition OUT_DIR : Path := joinpath (joinpath ROOT (lit "docs")) (lit "agent_runs").

Definition IMPLEMENTATION_PROMPTS : list text := [
  lit "Implementer A01: review VS Code-like top menu UX and propose precise patch steps.";
  lit "Implementer A02: improve code AI pane with plan/build/bugfix and fast feedback.";
  lit "Implementer A03: propose robust file-action menu for chat code blocks.";
  lit "Implementer A04: refine sidebar vertical nav and collapsed behavior.";
  lit "Implementer A05: design drag/reorder UX for file library list.";
  lit "Implementer A06: propose multi-sort file controls with open-in-code shortcut.";
  lit "Implementer A07: validate tab rename UX and persistence behavior.";
  lit "Implementer A08: system prompt settings design for chat/coding/plan/build/bugfix/image."
].

Definition BUGFIX_PROMPTS : list text := [
  lit "Bugfix B01: scan for renderer prop/type mismatches caused by new code features.";
  lit "Bugfix B02: scan IPC contracts for payload mismatch and null/undefined risks.";
  lit "Bugfix B03: review code AI timeout and loading UX for failure states.";
  lit "Bugfix B04: review file operations edge cases: rename, move, duplicate, download.";
  lit "Bugfix B05: review sidebar keyboard shortcut regressions and nav consistency.";
  lit "Bugfix B06: review CSS overflow issues for code menubar and download shelf."
].

Definition DOC_PROMPTS : list text := [
  lit "Docs C01: draft concise changelog entries for new IDE features.";
  lit "Docs C02: draft architecture notes for new IPC and AI mode routing.";
  lit "Docs C03: draft QA checklist for code view, files, settings, chat.";
  lit "Docs C04: draft release notes plus known limitations and next steps."
].

(** *** [run_agent] *)

(** The artifact of a job: [OUT_DIR / f"{phase}_{idx:02d}_{stamp}.md"]. *)
Definition artifact_name (phase : text) (idx : Z) (stamp : text) : text :=
  phase ++ lit "_" ++ fmt_0d 2 idx ++ lit "_" ++ stamp ++ lit ".md".

Definition out_file_of (phase : text) (idx : Z) (t : datetime) : Path :=
  joinpath OUT_DIR (artifact_name phase idx (strftime_stamp t)).

Definition command (prompt : text) : list text :=
  [ lit "powershell"; lit "-NoProfile"; lit "-Command";
    lit "codex exec " ++ [QUOTE] ++ prompt ++ [QUOTE] ].

(** The [try ... except subprocess.TimeoutExpired] block: the captured
    stdout and stderr and the exit code. *)
Definition capture (p : process) : result (text * text * Z) :=
  match
    proc ← subprocess_run p 120;
    stdout ← decode_captured (stdout_of proc);
    stderr ← decode_captured (stderr_of proc);
    mret (stdout, stderr, returncode proc)
  with
  | Raise (TimeoutExpired out err) =>
      stdout ← decode_captured out;
      stderr ← decode_captured err;
      mret (stdout, stderr ++ LF :: lit "TIMEOUT", TIMEOUT_STATUS)
  | r => r
  end.

(** The lines of the report. *)
Definition body_of (phase : text) (idx : Z) (prompt : text)
    (exit_code : Z) (stdout stderr : text) : list text :=
  [ lit "# " ++ phase ++ lit " Agent " ++ fmt_0d 2 idx;
    [];
    lit "- Prompt: " ++ prompt;
    lit "- Exit code: " ++ str_int exit_code;
    [];
    lit "## Stdout";
    FENCE;
    strip stdout;
    FENCE;
    [];
    lit "## Stderr";
    FENCE;
    strip stderr;
    FENCE;
    [] ].

Definition run_agent (w : job_world) (phase : text) (idx : Z) (prompt : text)
    : M (text * Z) :=
  let stamp := strftime_stamp (now w) in
  let out_file := joinpath OUT_DIR (artifact_name phase idx stamp) in
  let cmd := command prompt in
  '(stdout, stderr, exit_code) ← lift (capture (os_exec w cmd (str_path ROOT)));
  let body := body_of phase idx prompt exit_code stdout stderr in
  write_text (disk_ok w) out_file (join [LF] body);;
  mret (str_path out_file, exit_code).

(** *** [run_phase] *)

(** The job threads at work: [ex.submit(run_agent, name, i + 1, p)] for
    each [i, p] of [enumerate(prompts)], played in the order [ms]; the
    futures are listed in the order they are done. *)
Fixpoint run_jobs (w : phase_world) (name : text) (prompts : list text)
    (ms : list mark) : M (list (result (text * Z))) :=
  match ms with
  | [] => mret []
  | MStart i :: ms' =>
      emit (EvStart name (Z.of_nat i + 1));;
      run_jobs w name prompts ms'
  | MEnd i :: ms' =>
      match prompts !! i with
      | Some p =>
          fut ← attempt (run_agent (pw_job w i) name (Z.of_nat i + 1) p);
          emit (EvEnd name (Z.of_nat i + 1));;
          futs ← run_jobs w name prompts ms';
          mret (fut :: futs)
      | None => run_jobs w name prompts ms'
      end
  end.

(** The loop [for fut in as_completed(futs)]: [fut.result()] returns the
    value of the call or raises its exception again. *)
Fixpoint collect (name : text) (futs : list (result (text * Z)))
    (results : list (text * Z)) : M (list (text * Z)) :=
  match futs with
  | [] => mret results
  | fut :: futs' =>
      '(path, code) ← lift fut;
      print (lit "[" ++ name ++ lit "] completed: exit=" ++ str_int code
             ++ lit " file=" ++ path);;
      collect name futs' (results ++ [(path, code)])
  end.

(** [ThreadPoolExecutor(max_workers=n)] *)
Definition ThreadPoolExecutor (max_workers : nat) : M unit :=
  if bool_decide (max_workers = 0%nat) then lift (Raise ValueError) else mret tt.

(** The [with] block ends when every job thread is over, whether the
    loop in it returned or raised. *)
Definition run_phase (w : phase_world) (name : text) (prompts : list text)
    : M (list (text * Z)) :=
  print (lit "Running phase: " ++ name ++ lit " ("
         ++ str_int (Z.of_nat (length prompts)) ++ lit " agents)");;
  let results := [] in
  ThreadPoolExecutor (length prompts);;
  futs ← run_jobs w name prompts
           (play (pw_sched w) (replicate (length prompts) Pending));
  collect name futs results.

(** *** [main] *)

(** [sum(1 for _, c in all_results if c == 0)] *)
Definition count_ok (all_results : list (text * Z)) : nat :=
  sum_list ((λ _, 1%nat) <$> filter (λ r, r.2 = 0%Z) all_results).

Definition main (w : run_world) : M unit :=
  let all_results := [] in
  r ← run_phase (rw_phase w 0) (lit "implementation") IMPLEMENTATION_PROMPTS;
  let all_results := all_results ++ r in
  r ← run_phase (rw_phase w 1) (lit "bugfix") BUGFIX_PROMPTS;
  let all_results := all_results ++ r in
  r ← run_phase (rw_phase w 2) (lit "docs") DOC_PROMPTS;
  let all_results := all_results ++ r in
  let ok := count_ok all_results in
  print (lit "All phases complete. Successful agents: "
         ++ str_int (Z.of_nat ok) ++ lit "/"
         ++ str_int (Z.of_nat (length all_results))).

(** The script: the module level makes the output directory, then
    [main()] runs. *)
Definition script (w : run_world) : M unit :=
  mkdir (rw_mkdir w) OUT_DIR;;
  main w.

(** The exit status of the interpreter: 0 when the script ends, 1 when
    an exception is not caught. *)
Definition exit_status {A} (r : result A) : Z :=
  match r with Ok _ => 0 | Raise _ => 1 end.

End Script.

Definition st0 : state := {| fs := ∅; console := []; trace := [] |}.

(** ** Reading a report back

    A reader of the artifact [run_agent] writes.  It cuts the text into
    lines, takes the payload and the exit status from their lines, the
    stdout block from the line after its opening fence up to the first
    line that is a fence, and the stderr block from the line after its
    opening fence up to the closing fence, which is the line before the
    last. *)

Definition is_digit (c : N) : bool := (48 <=? c) && (c <=? 57).

Definition parse_nat (s : text) : N :=
  fold_left (λ acc c, acc * 10 + (c - 48)) s 0.

Definition parse_digits (s : text) : option N :=
  match s with
  | [] => None
  | _ => if forallb is_digit s then Some (parse_nat s) else None
  end.

Definition parse_int (s : text) : option Z :=
  match s with
  | c :: r =>
      if c =? MINUS then (λ n, - Z.of_N n)%Z <$> parse_digits r
      else Z.of_N <$> parse_digits s
  | [] => None
  end.

Fixpoint strip_prefix (p s : text) : option text :=
  match p, s with
  | [], _ => Some s
  | a :: p', b :: s' => if a =? b then strip_prefix p' s' else None
  | _ :: _, [] => None
  end.

Fixpoint take_until (stop : text) (ls : list text) : list text :=
  match ls with
  | [] => []
  | l :: r => if bool_decide (l = stop) then [] else l :: take_until stop r
  end.

Definition read_exit_code (artifact : text) : option Z :=
  match split_on LF artifact with
  | _ :: _ :: _ :: exit_line :: _ => strip_prefix (lit "- Exit code: ") exit_line ≫= parse_int
  | _ => None
  end.

Definition read_report (artifact : text) : option (Z * text * text * text) :=
  match split_on LF artifact with
  | _ :: _ :: prompt_line :: exit_line :: _ :: _ :: _ :: blocks =>
      prompt ← strip_prefix (lit "- Prompt: ") prompt_line;
      code ← strip_prefix (lit "- Exit code: ") exit_line ≫= parse_int;
      let out_lines := take_until FENCE blocks in
      let rest := drop (length out_lines + 4) blocks in
      let err_lines := take (length rest - 2) rest in
      Some (code, prompt, join [LF] out_lines, join [LF] err_lines)
  | _ => None
  end.

(** ** Notions the statements use *)

Global Instance event_eq_dec : EqDecision event.
Proof. solve_decision. Defined.

Definition event_phase (e : event) : text :=
  match e with EvStart p _ | EvEnd p _ => p end.

Definition mark_job (m : mark) : nat :=
  match m with MStart i | MEnd i => i end.

Definition mark_event (name : text) (m : mark) : event :=
  match m with
  | MStart i => EvStart name (Z.of_nat i + 1)
  | MEnd i => EvEnd name (Z.of_nat i + 1)
  end.

(** The jobs in the order in which they are over. *)
Fixpoint ends (ms : list mark) : list nat :=
  match ms with
  | [] => []
  | MStart _ :: r => ends r
  | MEnd i :: r => i :: ends r
  end.

(** The events of job [idx] of phase [name] in a history. *)
Definition job_events (name : text) (idx : Z) (t : list event) : list event :=
  filter (λ e, e = EvStart name idx ∨ e = EvEnd name idx) t.

(** A history in which the [K] jobs of phase [name], and only they, run:
    each of them starts once and is over once, in this order. *)
Definition phase_block (name : text) (K : nat) (t : list event) : Prop :=
  (∀ e, e ∈ t → ∃ i, (i < K)%nat ∧
      (e = EvStart name (Z.of_nat i + 1) ∨ e = EvEnd name (Z.of_nat i + 1)))
  ∧ (∀ i, (i < K)%nat →
      job_events name (Z.of_nat i + 1) t
      = [EvStart name (Z.of_nat i + 1); EvEnd name (Z.of_nat i + 1)]).

(** The phases of [main], in the order of its calls. *)
Definition phase_table : list (text * list text) :=
  [ (lit "implementation", IMPLEMENTATION_PROMPTS);
    (lit "bugfix", BUGFIX_PROMPTS);
    (lit "docs", DOC_PROMPTS) ].

(** The command of job [i] of a phase is started by the operating
    system, and its artifact is accepted by the disk. *)
Definition job_sound (ROOT : Path) (w : job_world) (prompt : text) : Prop :=
  p_starts (os_exec w (command prompt) (str_path ROOT)) = true ∧ disk_ok w = true.

Definition phase_sound (ROOT : Path) (w : phase_world) (prompts : list text) : Prop :=
  ∀ i p, prompts !! i = Some p → job_sound ROOT (pw_job w i) p.

Definition run_sound (ROOT : Path) (w : run_world) : Prop :=
  ∀ k name prompts, phase_table !! k = Some (name, prompts) →
    phase_sound ROOT (rw_phase w k) prompts.

(** What a call of [run_agent] returns or raises; it does not depend on
    the state the call runs in. *)
Definition agent_outcome (ROOT : Path) (w : job_world) (phase : text) (idx : Z)
    (prompt : text) : result (text * Z) :=
  (run_agent ROOT w phase idx prompt st0).2.

(** ** Example worlds *)

Definition ex_root : Path := {| absolute := true; parts := [lit "repo"] |}.

Definition ex_time : datetime :=
  {| year := 2026; month := 2; day := 3; hour := 4; minute := 5; second := 6 |}.

(** Exits at once with status 0 and the output [hi]. *)
Definition ex_quick : process :=
  {| p_starts := true; p_runtime := Some 5; p_returncode := 0%Z;
     p_stdout := Some [x68; x69; x0a]; p_stderr := Some [];
     p_partial_stdout := None; p_partial_stderr := None |}.

(** Still at work at the deadline, with [h] and [e] buffered. *)
Definition ex_slow : process :=
  {| p_starts := true; p_runtime := Some 500; p_returncode := 0%Z;
     p_stdout := Some [x68; x69; x0a]; p_stderr := Some [];
     p_partial_stdout := Some [x68]; p_partial_stderr := Some [x65] |}.

(** Exits with status 3 and the error output [no]. *)
Definition ex_failing : process :=
  {| p_starts := true; p_runtime := Some 7; p_returncode := 3%Z;
     p_stdout := Some []; p_stderr := Some [x6e; x6f];
     p_partial_stdout := None; p_partial_stderr := None |}.

(** The command does not exist. *)
Definition ex_missing : process :=
  {| p_starts := false; p_runtime := None; p_returncode := 0%Z;
     p_stdout := None; p_stderr := None;
     p_partial_stdout := None; p_partial_stderr := None |}.

Definition ex_job (p : process) : job_world :=
  {| now := ex_time; os_exec := λ _ _, p; disk_ok := true |}.

Definition ex_phase (p : process) : phase_world :=
  {| pw_job := λ _, ex_job p; pw_sched := [2; 1; 2; 0; 7; 1]%nat |}.

(** The first job fails, the second runs into the timeout, the others
    succeed. *)
Definition ex_phase_mixed : phase_world :=
  {| pw_job := λ i, ex_job (if bool_decide (i = 0%nat) then ex_failing
                            else if bool_decide (i = 1%nat) then ex_slow
                            else ex_quick);
     pw_sched := [3; 1; 1; 0; 3]%nat |}.

(** Every job exits at once. *)
Definition ex_run : run_world :=
  {| rw_mkdir := true; rw_phase := λ _, ex_phase ex_quick |}.

(** The second job of the first phase cannot be started. *)
Definition ex_phase_missing : phase_world :=
  {| pw_job := λ i, if bool_decide (i = 1%nat) then ex_job ex_missing else ex_job ex_quick;
     pw_sched := [2; 1; 2; 0; 7; 1]%nat |}.

Definition ex_run_missing : run_world :=
  {| rw_mkdir := true;
     rw_phase := λ k, if bool_decide (k = 0%nat) then ex_phase_missing else ex_phase ex_quick |}.

(** ** Notions the proofs use *)

(** One step of [parse_nat]. *)
Definition parse_step (acc c : N) : N := acc * 10 + (c - 48).

(** The value a padded integer stands for. *)
Definition fmt_value (s : text) : Z :=
  match s with
  | c :: r => if c =? MINUS then (- Z.of_N (parse_nat r))%Z else Z.of_N (parse_nat s)
  | [] => 0%Z
  end.

(** The characters of a padded integer: digits, after a minus sign at
    most. *)
Definition plain_char (c : N) : Prop := is_digit c = true ∨ c = MINUS.

(** What [str(p / s)] puts before a one-component [s]. *)
Definition path_prefix (p : Path) : text :=
  (if absolute p then lit "/" else [])
  ++ match parts p with [] => [] | ps => join (lit "/") ps ++ lit "/" end.

(** The two halves of a stamp, before and after its underscore. *)
Definition date_part (t : datetime) : text :=
  field 4 (year t) ++ field 2 (month t) ++ field 2 (day t).

Definition time_part (t : datetime) : text :=
  field 2 (hour t) ++ field 2 (minute t) ++ field 2 (second t).

(** How the result under [Replace] follows the result under [Strict]:
    it is always a text; it is the same text when [Strict] gives one;
    and it holds a replacement character when [Strict] raises. *)
Definition lenient (strict replace : result text) : Prop :=
  (∃ t, replace = Ok t)
  ∧ (∀ t, strict = Ok t → replace = Ok t)
  ∧ (∀ e, strict = Raise e →
       e = UnicodeDecodeError ∧ ∃ t, replace = Ok t ∧ REPLACEMENT ∈ t).

(** The state after a job has written its report. *)
Definition written (st : state) (path data : text) : state :=
  {| fs := <[path := data]> (fs st); console := console st; trace := trace st |}.

(** The steps a job still has to take, by its state. *)
Definition steps_left (i : nat) (s : option jstate) : list mark :=
  match s with
  | Some Pending => [MStart i; MEnd i]
  | Some Running => [MEnd i]
  | _ => []
  end.

(** The future of the job at position [i]. *)
Definition job_future (ROOT : Path) (w : phase_world) (name : text)
    (prompts : list text) (i : nat) : result (text * Z) :=
  match prompts !! i with
  | Some p => agent_outcome ROOT (pw_job w i) name (Z.of_nat i + 1) p
  | None => Raise ValueError
  end.

(** The value it holds, when it holds one. *)
Definition job_value (ROOT : Path) (w : phase_world) (name : text)
    (prompts : list text) (i : nat) : text * Z :=
  match job_future ROOT w name prompts i with
  | Ok v => v
  | Raise _ => ([], 0%Z)
  end.

(** The steps of the loop over the futures. *)
Definition reported (name : text) (r : text * Z) (st : state) : state :=
  (print (lit "[" ++ name ++ lit "] completed: exit=" ++ str_int r.2
          ++ lit " file=" ++ r.1) st).1.

(** The state in which the job threads of a phase start: the phase has
    been announced. *)
Definition announced (name : text) (prompts : list text) (st : state) : state :=
  (print (lit "Running phase: " ++ name ++ lit " ("
          ++ str_int (Z.of_nat (length prompts)) ++ lit " agents)") st).1.

(** The last line [main] prints. *)
Definition tally_line (ok total : nat) : text :=
  lit "All phases complete. Successful agents: "
  ++ str_int (Z.of_nat ok) ++ lit "/" ++ str_int (Z.of_nat total).

(** The three phases of a run, each from the state its predecessor
    leaves. *)
Definition phase1 (ROOT : Path) (w : run_world) (st : state) :=
  run_phase ROOT (rw_phase w 0) (lit "implementation") IMPLEMENTATION_PROMPTS st.
Definition phase2 (ROOT : Path) (w : run_world) (st : state) :=
  run_phase ROOT (rw_phase w 1) (lit "bugfix") BUGFIX_PROMPTS (phase1 ROOT w st).1.
Definition phase3 (ROOT : Path) (w : run_world) (st : state) :=
  run_phase ROOT (rw_phase w 2) (lit "docs") DOC_PROMPTS (phase2 ROOT w st).1.

(** The line [run_phase] prints first. *)
Definition phase_line (name : text) (n : nat) : text :=
  lit "Running phase: " ++ name ++ lit " (" ++ str_int (Z.of_nat n) ++ lit " agents)".

(** The line it prints for a result. *)
Definition completed_line (name : text) (r : text * Z) : text :=
  lit "[" ++ name ++ lit "] completed: exit=" ++ str_int r.2 ++ lit " file=" ++ r.1.

(** The file the job at position [i] of a phase writes, with its
    content: none when its command does not start or the disk refuses
    the report. *)
Definition job_file (ROOT : Path) (w : phase_world) (name : text)
    (prompts : list text) (i : nat) : option (text * text) :=
  p ← prompts !! i;
  match capture (os_exec (pw_job w i) (command p) (str_path ROOT)) with
  | Ok (out, err, code) =>
      if disk_ok (pw_job w i)
      then Some (str_path (out_file_of ROOT name (Z.of_nat i + 1) (now (pw_job w i))),
                 join [LF] (body_of name (Z.of_nat i + 1) p code out err))
      else None
  | Raise _ => None
  end.

(** The files of a phase, in the order of its jobs. *)
Definition phase_files (ROOT : Path) (w : phase_world) (name : text)
    (prompts : list text) : list (text * text) :=
  omap (job_file ROOT w name prompts) (seq 0 (length prompts)).

(** The files of a run, in the order of its phases. *)
Definition run_files (ROOT : Path) (w : run_world) : list (text * text) :=
  phase_files ROOT (rw_phase w 0) (lit "implementation") IMPLEMENTATION_PROMPTS
  ++ phase_files ROOT (rw_phase w 1) (lit "bugfix") BUGFIX_PROMPTS
  ++ phase_files ROOT (rw_phase w 2) (lit "docs") DOC_PROMPTS.

Definition put_file (m : gmap text text) (kv : text * text) : gmap text text :=
  <[kv.1 := kv.2]> m.

(** Two worlds in which the jobs find the same, whatever their
    schedulers do. *)
Definition same_jobs (w w' : run_world) : Prop :=
  rw_mkdir w = rw_mkdir w'
  ∧ ∀ k i, pw_job (rw_phase w k) i = pw_job (rw_phase w' k) i.

(** A Unicode scalar value: a code point that is no surrogate. *)
Definition scalar (c : N) : bool :=
  (c <? 0x110000) && negb ((0xD800 <=? c) && (c <=? 0xDFFF)).

(** Another scheduler for the example run. *)
Definition ex_run_other : run_world :=
  {| rw_mkdir := true;
     rw_phase := λ _, {| pw_job := λ _, ex_job ex_quick; pw_sched := [0; 0; 3]%nat |} |}.

(** The disk refuses the report of the first job of the second phase. *)
Definition ex_run_disk : run_world :=
  {| rw_mkdir := true;
     rw_phase := λ k,
       {| pw_job := λ i, {| now := ex_time; os_exec := λ _ _, ex_quick;
                            disk_ok := negb (bool_decide (k = 1%nat ∧ i = 0%nat)) |};
          pw_sched := [] |} |}.

(** The 256 bytes. *)
Definition all_bytes : list byte := omap of_N (N.of_nat <$> seq 0 256).

(** The checks of the decoded values, over all bytes: the low bits of a
    continuation byte reach neither bit 11 nor bit 16. *)
Definition check_cont : bool :=
  forallb (λ b, (N.shiftr (cont_bits b) 11 =? 0) && (N.shiftr (cont_bits b) 16 =? 0)
                && (N.shiftr (N.shiftl (cont_bits b) 6) 16 =? 0)) all_bytes.

(** The head of a two-byte sequence reaches neither bit 11 nor bit 16. *)
Definition check2 : bool :=
  forallb (λ b0, (N.shiftr (N.shiftl (N.land (to_N b0) 0x1F) 6) 16 =? 0)
                 && (N.shiftr (N.shiftl (N.land (to_N b0) 0x1F) 6) 11 =? 0)) all_bytes.

(** What the first two bytes of a three-byte sequence put above bit [k]. *)
Definition head3 (k : N) (b0 b1 : byte) : N :=
  N.lor (N.shiftr (N.shiftl (N.land (to_N b0) 0x0F) 12) k)
        (N.shiftr (N.shiftl (cont_bits b1) 6) k).

(** A three-byte sequence the decoder accepts stays below bit 16 and
    outside the surrogates. *)
Definition check3 : bool :=
  forallb (λ b0, forallb (λ b1,
    if to_N b0 <? 0xE0 then true
    else if to_N b0 <? 0xF0 then
      if second3_ok (to_N b0) b1 then
        (head3 16 b0 b1 =? 0) && negb (head3 11 b0 b1 =? 27)
      else true
    else true) all_bytes) all_bytes.

(** What the first two bytes of a four-byte sequence put above bit 16. *)
Definition head4 (b0 b1 : byte) : N :=
  N.lor (N.shiftr (N.shiftl (N.land (to_N b0) 0x07) 18) 16)
        (N.shiftr (N.shiftl (cont_bits b1) 12) 16).

(** A four-byte sequence the decoder accepts lies from U+10000 to
    U+10FFFF. *)
Definition check4 : bool :=
  forallb (λ b0, forallb (λ b1,
    if to_N b0 <? 0xF0 then true
    else if to_N b0 <? 0xF5 then
      if second4_ok (to_N b0) b1 then (0 <? head4 b0 b1) && (head4 b0 b1 <? 17) else true
    else true) all_bytes) all_bytes.

(** A text of scalar values that is no longer than the bytes it comes
    from. *)
Definition sound_text (s : bytes) (t : text) : Prop :=
  Forall (λ c, scalar c = true) t ∧ (length t ≤ length s)%nat.

(** ** Tactics *)

(** Case analysis along the branches of the decoder. *)
Ltac decoder_cases :=
  repeat match goal with
    | |- context [if ?c then _ else _] => destruct c
    | |- context [match ?l with [] => _ | _ :: _ => _ end] => destruct l
    end.

(** A character does not occur in a literal. *)
Ltac lit_notin :=
  let H := fresh in
  intros H%list_elem_of_In; vm_compute in H; intuition discriminate.

(** Case analysis along the branches of the decoder, keeping the tests. *)
Ltac decoder_cases_eq :=
  repeat match goal with
    | |- context [if ?c then _ else _] => destruct c eqn:?
    | |- context [match ?l with [] => _ | _ :: _ => _ end] => destruct l
    end.

(** * Verification *)

(** ** Lists and text *)

Section ListFacts.
Context {A : Type} `{EqDecision A}.

(** A separator that occurs in neither tail splits a list in one way
    only, counted from the right. *)
Lemma first_split_unique (c : A) (p1 q1 p2 q2 : list A) :
  c ∉ p1 → c ∉ p2 → p1 ++ c :: q1 = p2 ++ c :: q2 → p1 = p2 ∧ q1 = q2.
Proof.
  revert p2. induction p1 as [|a p1 IH]; intros [|b p2] H1 H2 E; simpl in E.
  - by inversion E.
  - inversion E; subst. exfalso. apply H2. left.
  - inversion E; subst. exfalso. apply H1. left.
  - inversion E; subst.
    destruct (IH p2) as [-> ->]; try done.
    + intros ?. apply H1. by right.
    + intros ?. apply H2. by right.
Qed.

Lemma last_split_unique (c : A) (u1 v1 u2 v2 : list A) :
  c ∉ v1 → c ∉ v2 → u1 ++ c :: v1 = u2 ++ c :: v2 → u1 = u2 ∧ v1 = v2.
Proof.
  intros H1 H2 E.
  apply (f_equal reverse) in E.
  rewrite !reverse_app, !reverse_cons, <- !(assoc_L (++)) in E. simpl in E.
  apply first_split_unique in E; try (by rewrite elem_of_reverse).
  destruct E as [E1 E2].
  split; [apply (inj reverse), E2 | apply (inj reverse), E1].
Qed.

End ListFacts.

Lemma join_cons2 (sep x y : text) (l : list text) :
  join sep (x :: y :: l) = x ++ sep ++ join sep (y :: l).
Proof. reflexivity. Qed.

Lemma join_snoc (sep : text) (l : list text) (x : text) :
  join sep (l ++ [x]) = match l with [] => x | _ => join sep l ++ sep ++ x end.
Proof.
  induction l as [|a [|b l] IH]; try reflexivity.
  change (join sep ((a :: b :: l) ++ [x])) with (a ++ sep ++ join sep ((b :: l) ++ [x])).
  rewrite IH, join_cons2. by rewrite <- !(assoc_L (++)).
Qed.

Lemma split_on_nonempty (c : N) (s : text) : split_on c s ≠ [].
Proof.
  destruct s as [|x r]; simpl; [done|].
  destruct (x =? c); [done|]. by destruct (split_on c r).
Qed.

Lemma split_on_notin (c : N) (s : text) : c ∉ s → split_on c s = [s].
Proof.
  induction s as [|x r IH]; intros H; simpl; [done|].
  destruct (N.eqb_spec x c) as [->|Hne].
  - exfalso. apply H. left.
  - rewrite IH; [done|]. intros ?. apply H. by right.
Qed.

(** Splitting distributes over a separator between two texts. *)
Lemma split_on_app (c : N) (a b : text) :
  split_on c (a ++ c :: b) = split_on c a ++ split_on c b.
Proof.
  induction a as [|x a IH]; simpl.
  - by rewrite N.eqb_refl.
  - destruct (x =? c); [by rewrite IH|].
    rewrite IH. destruct (split_on c a) eqn:E; [|done].
    by apply split_on_nonempty in E.
Qed.

Lemma join_split_on (c : N) (s : text) : join [c] (split_on c s) = s.
Proof.
  induction s as [|x r IH]; simpl; [done|].
  destruct (N.eqb_spec x c) as [->|Hne].
  - destruct (split_on c r) as [|h t] eqn:E; [by apply split_on_nonempty in E|].
    rewrite join_cons2, IH. done.
  - destruct (split_on c r) as [|h [|h' t]] eqn:E.
    + by apply split_on_nonempty in E.
    + simpl in *. by rewrite IH.
    + rewrite join_cons2 in *. simpl. by rewrite <- IH.
Qed.

Lemma split_on_lines (c : N) (s : text) : Forall (λ l, c ∉ l) (split_on c s).
Proof.
  induction s as [|x r IH]; simpl.
  - repeat constructor. by intros ?%elem_of_nil.
  - destruct (N.eqb_spec x c) as [->|Hne].
    + constructor; [by intros ?%elem_of_nil | done].
    + destruct (split_on c r) as [|h t]; [repeat constructor|].
      * intros [?|?%elem_of_nil]%elem_of_cons; done.
      * inversion IH; subst. constructor; [|done].
        intros [?|?]%elem_of_cons; done.
Qed.

(** The lines of [c.join(l)] are the lines of the members of [l]. *)
Lemma split_on_join (c : N) (x : text) (l : list text) :
  split_on c (join [c] (x :: l)) = split_on c x ++ concat (split_on c <$> l).
Proof.
  revert x. induction l as [|y l IH]; intros x.
  - simpl. by rewrite app_nil_r.
  - rewrite join_cons2.
    change (x ++ [c] ++ join [c] (y :: l)) with (x ++ c :: join [c] (y :: l)).
    rewrite split_on_app, IH. reflexivity.
Qed.

(** ** Decimal formatting *)

Lemma uint_text_digit (d : uint) : Forall (λ c, is_digit c = true) (uint_text d).
Proof. induction d; simpl; constructor; done. Qed.

Lemma of_uint_acc_fold (d : uint) (acc : positive) :
  N.pos (Pos.of_uint_acc d acc) = fold_left parse_step (uint_text d) (N.pos acc).
Proof.
  revert acc. induction d; intros acc; simpl; [done|..];
    rewrite IHd; f_equal; unfold parse_step; lia.
Qed.

Lemma parse_nat_uint (d : uint) : parse_nat (uint_text d) = N.of_uint d.
Proof.
  unfold parse_nat, N.of_uint.
  change (λ acc c : N, acc * 10 + (c - 48)) with parse_step.
  induction d; simpl; try done; by rewrite of_uint_acc_fold.
Qed.

Lemma parse_nat_digits (n : N) : parse_nat (digits n) = n.
Proof. unfold digits. rewrite parse_nat_uint. apply DecimalN.Unsigned.of_to. Qed.

Lemma digits_digit (n : N) : Forall (λ c, is_digit c = true) (digits n).
Proof. apply uint_text_digit. Qed.

Lemma digits_nonempty (n : N) : digits n ≠ [].
Proof.
  intros E. pose proof (parse_nat_digits n) as H. rewrite E in H.
  simpl in H. subst n. discriminate E.
Qed.

Lemma parse_nat_zeros (k : nat) (s : text) :
  parse_nat (replicate k ZERO ++ s) = parse_nat s.
Proof.
  unfold parse_nat. rewrite fold_left_app. f_equal.
  induction k as [|k IH]; simpl; [done|]. apply IH.
Qed.

Lemma zfill_digit (w : nat) (s : text) :
  Forall (λ c, is_digit c = true) s → Forall (λ c, is_digit c = true) (zfill w s).
Proof. intros H. apply Forall_app. split; [by apply Forall_replicate | done]. Qed.

Lemma parse_nat_zfill (w : nat) (n : N) : parse_nat (zfill w (digits n)) = n.
Proof. unfold zfill. by rewrite parse_nat_zeros, parse_nat_digits. Qed.

Lemma zfill_nonempty (w : nat) (n : N) : zfill w (digits n) ≠ [].
Proof.
  unfold zfill. intros [_ E]%app_eq_nil. by apply digits_nonempty in E.
Qed.

Lemma fmt_value_fmt_0d (w : nat) (z : Z) : fmt_value (fmt_0d w z) = z.
Proof.
  unfold fmt_0d. destruct (Z.ltb_spec z 0) as [Hz|Hz].
  - simpl. rewrite parse_nat_zfill. lia.
  - pose proof (zfill_digit w _ (digits_digit (Z.abs_N z))) as Hd.
    pose proof (parse_nat_zfill w (Z.abs_N z)) as Hp.
    destruct (zfill w (digits (Z.abs_N z))) as [|c r] eqn:E.
    + by apply zfill_nonempty in E.
    + unfold fmt_value. inversion Hd as [|? ? Hc _]; subst.
      destruct (N.eqb_spec c MINUS) as [->|_]; [done|].
      rewrite Hp. lia.
Qed.

Lemma fmt_0d_inj (w : nat) (z1 z2 : Z) : fmt_0d w z1 = fmt_0d w z2 → z1 = z2.
Proof.
  intros E. rewrite <- (fmt_value_fmt_0d w z1), <- (fmt_value_fmt_0d w z2).
  by rewrite E.
Qed.

Lemma str_int_fmt (z : Z) : str_int z = fmt_0d 0 z.
Proof. reflexivity. Qed.

Lemma fmt_0d_chars (w : nat) (z : Z) : Forall plain_char (fmt_0d w z).
Proof.
  unfold fmt_0d. destruct (z <? 0)%Z.
  - constructor; [by right|].
    eapply Forall_impl; [|exact (zfill_digit _ _ (digits_digit _))]. intros; by left.
  - eapply Forall_impl; [|exact (zfill_digit _ _ (digits_digit _))]. intros; by left.
Qed.

Lemma field_chars (w : nat) (n : N) : Forall plain_char (field w n).
Proof.
  eapply Forall_impl; [|exact (zfill_digit _ _ (digits_digit _))]. intros; by left.
Qed.

Lemma plain_not (c : N) (s : text) :
  Forall plain_char s → is_digit c = false → c ≠ MINUS → c ∉ s.
Proof.
  intros H Hd Hm Hin. rewrite list.Forall_forall in H.
  destruct (H c Hin) as [?|?]; congruence.
Qed.

Lemma parse_digits_digits (n : N) : parse_digits (digits n) = Some n.
Proof.
  unfold parse_digits. pose proof (digits_nonempty n).
  destruct (digits n) as [|c r] eqn:E; [done|].
  rewrite <- E.
  assert (forallb is_digit (digits n) = true) as ->.
  { apply forallb_forall. intros x Hx.
    pose proof (digits_digit n) as Hd. rewrite list.Forall_forall in Hd.
    apply Hd. by apply list_elem_of_In. }
  by rewrite parse_nat_digits.
Qed.

(** The reader's integer parser inverts [str]. *)
Lemma parse_int_str_int (z : Z) : parse_int (str_int z) = Some z.
Proof.
  unfold str_int. destruct (Z.ltb_spec z 0) as [Hz|Hz].
  - simpl. rewrite parse_digits_digits. simpl. f_equal. lia.
  - pose proof (digits_digit (Z.abs_N z)) as Hd.
    pose proof (parse_digits_digits (Z.abs_N z)) as Hp.
    destruct (digits (Z.abs_N z)) as [|c r] eqn:E; [by apply digits_nonempty in E|].
    unfold parse_int. inversion Hd as [|? ? Hc _]; subst.
    destruct (N.eqb_spec c MINUS) as [->|_]; [done|].
    rewrite Hp. simpl. f_equal. lia.
Qed.

Lemma strip_prefix_app (p s : text) : strip_prefix p (p ++ s) = Some s.
Proof.
  induction p as [|a p IH]; simpl; [by destruct s|]. by rewrite N.eqb_refl.
Qed.

(** ** Paths and artifact names *)

Lemma parse_path_plain (s : text) :
  SLASH ∉ s → s ≠ [] → s ≠ lit "." →
  parse_path s = {| absolute := false; parts := [s] |}.
Proof.
  intros Hs Hne Hdot. unfold parse_path. f_equal.
  - apply bool_decide_eq_false. destruct s as [|c r]; simpl; [done|].
    intros [= ->]. apply Hs. left.
  - rewrite split_on_notin by done.
    rewrite filter_cons_True, filter_nil; [done|].
    unfold is_component.
    rewrite !bool_decide_eq_false_2 by done. done.
Qed.

Lemma str_path_snoc (a : bool) (ps : list text) (s : text) :
  str_path {| absolute := a; parts := ps ++ [s] |}
  = (if a then lit "/" else []) ++ join (lit "/") (ps ++ [s]).
Proof. unfold str_path. destruct a, ps; reflexivity. Qed.

Lemma str_path_join_plain (p : Path) (s : text) :
  SLASH ∉ s → s ≠ [] → s ≠ lit "." →
  str_path (joinpath p s) = path_prefix p ++ s.
Proof.
  intros Hs Hne Hdot. unfold joinpath. rewrite parse_path_plain by done.
  cbv beta iota zeta delta [absolute parts].
  rewrite str_path_snoc, join_snoc. unfold path_prefix.
  destruct p as [a ps]. cbv beta iota delta [absolute parts].
  destruct ps; by rewrite <- ?(assoc_L (++)).
Qed.

Lemma artifact_name_shape (phase : text) (idx : Z) (t : datetime) :
  artifact_name phase idx (strftime_stamp t)
  = phase ++ UNDERSCORE :: (fmt_0d 2 idx ++ UNDERSCORE ::
      (date_part t ++ UNDERSCORE :: (time_part t ++ lit ".md"))).
Proof.
  unfold artifact_name, strftime_stamp, date_part, time_part.
  change (lit "_") with [UNDERSCORE].
  rewrite <- !(assoc_L (++)). reflexivity.
Qed.

Lemma date_part_chars (t : datetime) : Forall plain_char (date_part t).
Proof. unfold date_part. rewrite !Forall_app. auto using field_chars. Qed.

Lemma time_part_chars (t : datetime) : Forall plain_char (time_part t).
Proof. unfold time_part. rewrite !Forall_app. auto using field_chars. Qed.

Lemma tail_chars (c : N) (t : datetime) :
  is_digit c = false → c ≠ MINUS → c ∉ lit ".md" → c ∉ time_part t ++ lit ".md".
Proof.
  intros Hd Hm Hx [H|H]%elem_of_app; [|done].
  by apply (plain_not c _ (time_part_chars t)).
Qed.

Lemma artifact_name_notin (c : N) (phase : text) (idx : Z) (t : datetime) :
  is_digit c = false → c ≠ MINUS → c ≠ UNDERSCORE → c ∉ lit ".md" → c ∉ phase →
  c ∉ artifact_name phase idx (strftime_stamp t).
Proof.
  intros Hd Hm Hu Hx Hp. rewrite artifact_name_shape.
  pose proof (plain_not c _ (fmt_0d_chars 2 idx) Hd Hm).
  pose proof (plain_not c _ (date_part_chars t) Hd Hm).
  pose proof (tail_chars c t Hd Hm Hx) as Ht.
  intros [?|[?|[?|[?|[?|[?|?]%elem_of_cons]%elem_of_app]%elem_of_cons]%elem_of_app]%elem_of_cons]%elem_of_app;
    done.
Qed.

Lemma artifact_name_component (phase : text) (idx : Z) (t : datetime) :
  SLASH ∉ phase →
  (SLASH ∉ artifact_name phase idx (strftime_stamp t))
  ∧ artifact_name phase idx (strftime_stamp t) ≠ []
  ∧ artifact_name phase idx (strftime_stamp t) ≠ lit ".".
Proof.
  intros Hp. split; [|split].
  - apply artifact_name_notin; try done.
    intros H%list_elem_of_In. simpl in H. intuition discriminate.
  - rewrite artifact_name_shape. by destruct phase.
  - rewrite artifact_name_shape.
    intros E. apply (f_equal length) in E.
    rewrite length_app in E. simpl in E. rewrite length_app in E. simpl in E.
    change (length (lit ".")) with 1%nat in E. lia.
Qed.

(** The artifact path of a job whose phase name has no separator. *)
Lemma out_file_plain (ROOT : Path) (phase : text) (idx : Z) (t : datetime) :
  SLASH ∉ phase →
  str_path (out_file_of ROOT phase idx t)
  = path_prefix (OUT_DIR ROOT) ++ artifact_name phase idx (strftime_stamp t).
Proof.
  intros Hp. destruct (artifact_name_component phase idx t Hp) as (H1 & H2 & H3).
  by apply str_path_join_plain.
Qed.

Lemma triple_split_unique (c : N) (u a b d u' a' b' d' : text) :
  c ∉ a → c ∉ b → c ∉ d → c ∉ a' → c ∉ b' → c ∉ d' →
  u ++ c :: (a ++ c :: (b ++ c :: d)) = u' ++ c :: (a' ++ c :: (b' ++ c :: d')) →
  u = u' ∧ a = a'.
Proof.
  intros Ha Hb Hd Ha' Hb' Hd' E.
  assert (∀ u a b d : text,
    u ++ c :: (a ++ c :: (b ++ c :: d)) = (u ++ c :: (a ++ c :: b)) ++ c :: d) as R.
  { intros. repeat (rewrite <- (assoc_L (++)); simpl). reflexivity. }
  rewrite !R in E.
  apply last_split_unique in E as [E _]; [|done..].
  rewrite !(app_comm_cons _ _ c), !(assoc_L (++)) in E.
  apply last_split_unique in E as [E _]; [|done..].
  by apply last_split_unique in E.
Qed.

(** The name of an artifact gives back the phase and the index. *)
Lemma artifact_name_inj (phase1 phase2 : text) (idx1 idx2 : Z) (t1 t2 : datetime) :
  artifact_name phase1 idx1 (strftime_stamp t1)
  = artifact_name phase2 idx2 (strftime_stamp t2) →
  phase1 = phase2 ∧ idx1 = idx2.
Proof.
  rewrite !artifact_name_shape. intros E.
  assert (∀ t, UNDERSCORE ∉ time_part t ++ lit ".md") as Ht.
  { intros t. apply tail_chars; try done.
    intros H%list_elem_of_In. simpl in H. intuition discriminate. }
  assert (∀ t, UNDERSCORE ∉ date_part t) as Hd
    by (intros t; by apply (plain_not _ _ (date_part_chars t))).
  assert (∀ i, UNDERSCORE ∉ fmt_0d 2 i) as Hi
    by (intros i; by apply (plain_not _ _ (fmt_0d_chars 2 i))).
  apply triple_split_unique in E as [E1 E2]; [|done..].
  split; [done|]. by apply fmt_0d_inj in E2.
Qed.

(** C6.  Two jobs that differ in the phase name or in the sequence index
    have different artifact paths, whatever the clock shows when each of
    them starts, and so also when both start in the same second.  The
    phase names are names: they hold no path separator. *)
Theorem artifact_paths_distinct (ROOT : Path) (phase1 phase2 : text)
    (idx1 idx2 : Z) (t1 t2 : datetime) :
  SLASH ∉ phase1 → SLASH ∉ phase2 →
  (phase1, idx1) ≠ (phase2, idx2) →
  str_path (out_file_of ROOT phase1 idx1 t1)
  ≠ str_path (out_file_of ROOT phase2 idx2 t2).
Proof.
  intros H1 H2 Hne E. rewrite !out_file_plain in E by done.
  apply app_inv_head in E. apply artifact_name_inj in E as [-> ->]. done.
Qed.

Lemma artifact_paths_distinct_witness :
  str_path (out_file_of ex_root (lit "bugfix") 1 ex_time)
  ≠ str_path (out_file_of ex_root (lit "bugfix") 2 ex_time).
Proof.
  apply artifact_paths_distinct.
  - intros H%list_elem_of_In. vm_compute in H. intuition discriminate.
  - intros H%list_elem_of_In. vm_compute in H. intuition discriminate.
  - intros [=].
Defined.

(** ** The decoder *)

Lemma lenient_char (c : N) (rs rr : result text) :
  lenient rs rr → lenient (rmap (cons c) rs) (rmap (cons c) rr).
Proof.
  intros ([t Ht] & Hok & Herr). subst rr. split; [|split].
  - by exists (c :: t).
  - destruct rs as [t'|e]; simpl; intros u [= <-].
    by injection (Hok t' eq_refl) as ->.
  - destruct rs as [t'|e]; simpl; intros e' [= <-].
    destruct (Herr e eq_refl) as (-> & u & [= <-] & Hin).
    split; [done|]. exists (c :: t). split; [done|]. by right.
Qed.

Lemma lenient_error (rs rr : result text) :
  lenient rs rr → lenient (on_error Strict rs) (on_error Replace rr).
Proof.
  intros ([t ->] & _). split; [|split]; simpl.
  - by exists (REPLACEMENT :: t).
  - done.
  - intros e [= <-]. split; [done|]. exists (REPLACEMENT :: t). split; [done|]. left.
Qed.

Lemma lenient_end : lenient (on_error Strict (Ok [])) (on_error Replace (Ok [])).
Proof.
  split; [|split]; simpl.
  - by eexists.
  - done.
  - intros e [= <-]. split; [done|]. eexists. split; [done|]. left.
Qed.

Lemma lenient_nil : lenient (Ok []) (Ok []).
Proof. split; [by eexists|]. split; [done|]. intros e [=]. Qed.

Lemma utf8_decode_cons (errors : handler) (b0 : byte) (s1 : bytes) :
  utf8_decode errors (b0 :: s1)
  = let ch := to_N b0 in
    if ch <? 0x80 then rmap (cons ch) (utf8_decode errors s1)
    else if ch <? 0xC2 then on_error errors (utf8_decode errors s1)
    else if ch <? 0xE0 then
      match s1 with
      | [] => on_error errors (Ok [])
      | b1 :: s2 =>
          if is_cont b1 then
            rmap (cons (N.lor (N.shiftl (N.land ch 0x1F) 6) (cont_bits b1)))
                 (utf8_decode errors s2)
          else on_error errors (utf8_decode errors s1)
      end
    else if ch <? 0xF0 then
      match s1 with
      | [] => on_error errors (Ok [])
      | b1 :: s2 =>
          if second3_ok ch b1 then
            match s2 with
            | [] => on_error errors (Ok [])
            | b2 :: s3 =>
                if is_cont b2 then
                  rmap (cons (N.lor (N.shiftl (N.land ch 0x0F) 12)
                                (N.lor (N.shiftl (cont_bits b1) 6) (cont_bits b2))))
                       (utf8_decode errors s3)
                else on_error errors (utf8_decode errors s2)
            end
          else on_error errors (utf8_decode errors s1)
      end
    else if ch <? 0xF5 then
      match s1 with
      | [] => on_error errors (Ok [])
      | b1 :: s2 =>
          if second4_ok ch b1 then
            match s2 with
            | [] => on_error errors (Ok [])
            | b2 :: s3 =>
                if is_cont b2 then
                  match s3 with
                  | [] => on_error errors (Ok [])
                  | b3 :: s4 =>
                      if is_cont b3 then
                        rmap (cons (N.lor (N.shiftl (N.land ch 0x07) 18)
                                      (N.lor (N.shiftl (cont_bits b1) 12)
                                         (N.lor (N.shiftl (cont_bits b2) 6) (cont_bits b3)))))
                             (utf8_decode errors s4)
                      else on_error errors (utf8_decode errors s3)
                  end
                else on_error errors (utf8_decode errors s2)
            end
          else on_error errors (utf8_decode errors s1)
      end
    else on_error errors (utf8_decode errors s1).
Proof. reflexivity. Qed.

Lemma utf8_decode_lenient_upto (n : nat) (s : bytes) :
  (length s ≤ n)%nat → lenient (utf8_decode Strict s) (utf8_decode Replace s).
Proof.
  revert s. induction n as [|n IH]; intros [|b0 s1] Hlen;
    try apply lenient_nil; simpl in Hlen; [lia|].
  rewrite !utf8_decode_cons. cbv zeta.
  decoder_cases;
    first [ apply lenient_end
          | apply lenient_char, IH; simpl in *; lia
          | apply lenient_error, IH; simpl in *; lia ].
Qed.

Lemma utf8_decode_lenient (s : bytes) :
  lenient (utf8_decode Strict s) (utf8_decode Replace s).
Proof. by apply (utf8_decode_lenient_upto (length s)). Qed.

Lemma decode_captured_total (b : option bytes) : ∃ t, decode_captured b = Ok t.
Proof. apply utf8_decode_lenient. Qed.

(** ** [run_agent] *)

Lemma capture_unstarted (p : process) :
  p_starts p = false → capture p = Raise StartError.
Proof. intros H. unfold capture, subprocess_run. by rewrite H. Qed.

Lemma capture_completed (p : process) (d : N) :
  p_starts p = true → p_runtime p = Some d → d ≤ 120 →
  ∃ out err, decode_captured (p_stdout p) = Ok out
    ∧ decode_captured (p_stderr p) = Ok err
    ∧ capture p = Ok (out, err, p_returncode p).
Proof.
  intros Hs Hr Hd.
  destruct (decode_captured_total (p_stdout p)) as [out Ho].
  destruct (decode_captured_total (p_stderr p)) as [err He].
  exists out, err. split; [done|]. split; [done|].
  unfold capture, subprocess_run. rewrite Hs, Hr.
  destruct (N.leb_spec d 120); [|lia]. simpl.
  rewrite Ho. simpl. rewrite He. reflexivity.
Qed.

Lemma capture_timeout (p : process) :
  p_starts p = true → (∀ d, p_runtime p = Some d → 120 < d) →
  ∃ out err, decode_captured (p_partial_stdout p) = Ok out
    ∧ decode_captured (p_partial_stderr p) = Ok err
    ∧ capture p = Ok (out, err ++ LF :: lit "TIMEOUT", TIMEOUT_STATUS).
Proof.
  intros Hs Hr.
  destruct (decode_captured_total (p_partial_stdout p)) as [out Ho].
  destruct (decode_captured_total (p_partial_stderr p)) as [err He].
  exists out, err. split; [done|]. split; [done|].
  unfold capture, subprocess_run. rewrite Hs.
  destruct (p_runtime p) as [d|] eqn:E.
  - specialize (Hr d eq_refl). destruct (N.leb_spec d 120); [lia|]. simpl.
    rewrite Ho. simpl. rewrite He. reflexivity.
  - simpl. rewrite Ho. simpl. rewrite He. reflexivity.
Qed.

Lemma capture_started (p : process) :
  p_starts p = true → ∃ out err code, capture p = Ok (out, err, code).
Proof.
  intros Hs. destruct (p_runtime p) as [d|] eqn:E.
  - destruct (N.le_gt_cases d 120) as [Hd|Hd].
    + destruct (capture_completed p d Hs E Hd) as (o & e & _ & _ & H). eauto.
    + destruct (capture_timeout p Hs) as (o & e & _ & _ & H); [|eauto].
      intros d' Hd'. rewrite E in Hd'. by inversion Hd'; subst.
  - destruct (capture_timeout p Hs) as (o & e & _ & _ & H); [|eauto].
    intros d' Hd'. by rewrite E in Hd'.
Qed.

(** The only exception the capture lets through is the start error. *)
Lemma capture_raise (p : process) (e : exn) :
  capture p = Raise e → e = StartError ∧ p_starts p = false.
Proof.
  intros H. destruct (p_starts p) eqn:Hs.
  - destruct (capture_started p Hs) as (o & e' & c & H'). congruence.
  - rewrite capture_unstarted in H by done. by inversion H.
Qed.

Lemma run_agent_eq (ROOT : Path) (w : job_world) (phase : text) (idx : Z)
    (prompt : text) (st : state) :
  run_agent ROOT w phase idx prompt st
  = match capture (os_exec w (command prompt) (str_path ROOT)) with
    | Ok (out, err, code) =>
        if disk_ok w
        then (written st (str_path (out_file_of ROOT phase idx (now w)))
                (join [LF] (body_of phase idx prompt code out err)),
              Ok (str_path (out_file_of ROOT phase idx (now w)), code))
        else (st, Raise WriteError)
    | Raise e => (st, Raise e)
    end.
Proof.
  unfold run_agent, mbind, M_bind, bind, lift, write_text, mret, M_ret, ret.
  destruct (capture _) as [[[out err] code]|e]; [|done].
  by destruct (disk_ok w).
Qed.

(** A call of [run_agent] returns or raises the same in every state. *)
Lemma run_agent_outcome (ROOT : Path) (w : job_world) (phase : text) (idx : Z)
    (prompt : text) (st : state) :
  (run_agent ROOT w phase idx prompt st).2 = agent_outcome ROOT w phase idx prompt.
Proof.
  unfold agent_outcome. rewrite !run_agent_eq.
  destruct (capture _) as [[[out err] code]|e]; [|done].
  by destruct (disk_ok w).
Qed.

(** It touches neither the console nor the history of the threads. *)
Lemma run_agent_frame (ROOT : Path) (w : job_world) (phase : text) (idx : Z)
    (prompt : text) (st : state) :
  console (run_agent ROOT w phase idx prompt st).1 = console st
  ∧ trace (run_agent ROOT w phase idx prompt st).1 = trace st.
Proof.
  rewrite run_agent_eq.
  destruct (capture _) as [[[out err] code]|e]; [|done].
  by destruct (disk_ok w).
Qed.

(** It returns exactly when the command starts and the disk takes the
    report. *)
Lemma agent_outcome_sound (ROOT : Path) (w : job_world) (phase : text) (idx : Z)
    (prompt : text) :
  job_sound ROOT w prompt →
  ∃ code, agent_outcome ROOT w phase idx prompt
          = Ok (str_path (out_file_of ROOT phase idx (now w)), code).
Proof.
  intros [Hs Hd]. unfold agent_outcome. rewrite run_agent_eq.
  destruct (capture_started _ Hs) as (o & e & c & ->). rewrite Hd. by exists c.
Qed.

Lemma agent_outcome_ok (ROOT : Path) (w : job_world) (phase : text) (idx : Z)
    (prompt : text) (r : text * Z) :
  agent_outcome ROOT w phase idx prompt = Ok r → job_sound ROOT w prompt.
Proof.
  unfold agent_outcome. rewrite run_agent_eq.
  destruct (capture _) as [[[out err] code]|e] eqn:E; [|done].
  destruct (disk_ok w) eqn:Hd; [|done]. intros _. split; [|done].
  destruct (p_starts _) eqn:Hs; [done|].
  by rewrite capture_unstarted in E.
Qed.

Lemma agent_outcome_raise (ROOT : Path) (w : job_world) (phase : text) (idx : Z)
    (prompt : text) (e : exn) :
  agent_outcome ROOT w phase idx prompt = Raise e →
  e = StartError ∨ e = WriteError.
Proof.
  unfold agent_outcome. rewrite run_agent_eq.
  destruct (capture _) as [[[out err] code]|e'] eqn:E.
  - destruct (disk_ok w); [done|]. intros [= <-]. by right.
  - intros [= <-]. left. by apply capture_raise in E as [-> _].
Qed.

(** ** The scheduler *)

Lemma filter_fmap_iff {A B} (f : A → B) (P : B → Prop) (Q : A → Prop)
    `{∀ x, Decision (P x)} `{∀ x, Decision (Q x)} (l : list A) :
  (∀ x, P (f x) ↔ Q x) → filter P (f <$> l) = f <$> filter Q l.
Proof.
  intros HPQ. induction l as [|a l IH]; [done|].
  rewrite fmap_cons, !filter_cons, IH.
  destruct (decide (P (f a))) as [Hp|Hp], (decide (Q a)) as [Hq|Hq];
    try done; by apply HPQ in Hp || apply HPQ in Hq.
Qed.

Lemma NoDup_filter_once {A} `{EqDecision A} (l : list A) :
  (∀ x, (length (filter (λ y, y = x) l) ≤ 1)%nat) → NoDup l.
Proof.
  induction l as [|a l IH]; intros H; constructor.
  - specialize (H a). rewrite filter_cons_True in H by done. simpl in H.
    intros Hin. assert (a ∈ filter (λ y, y = a) l) as Hf
      by (by apply list_elem_of_filter).
    destruct (filter (λ y, y = a) l); [by apply elem_of_nil in Hf | simpl in H; lia].
  - apply IH. intros x. specialize (H x). rewrite filter_cons in H.
    destruct (decide (a = x)); simpl in H; lia.
Qed.

Lemma flush_job (js : list jstate) (o i : nat) :
  filter (λ m, mark_job m = i) (flush o js)
  = if decide (o ≤ i)%nat then steps_left i (js !! (i - o)%nat) else [].
Proof.
  revert o. induction js as [|s js IH]; intros o.
  - simpl. by destruct (decide _).
  - assert (filter (λ m, mark_job m = i) (flush (S o) js)
            = if decide (o < i)%nat then steps_left i ((s :: js) !! (i - o)%nat) else [])
      as Htail.
    { rewrite IH. destruct (decide (S o ≤ i)%nat), (decide (o < i)%nat); try lia; [|done].
      replace (i - o)%nat with (S (i - S o)) by lia. done. }
    destruct s; simpl flush; rewrite ?filter_cons, Htail; simpl mark_job;
      destruct (decide (o = i)) as [->|Hne];
      destruct (decide (_ ≤ _)%nat); destruct (decide (_ < _)%nat); try lia;
      rewrite ?Nat.sub_diag; try done.
Qed.

(** Whatever the scheduler does, a job takes exactly the steps it has
    left, in their order. *)
Lemma play_job (sched : list nat) (js : list jstate) (i : nat) :
  filter (λ m, mark_job m = i) (play sched js) = steps_left i (js !! i).
Proof.
  revert js. induction sched as [|k sched IH]; intros js.
  - simpl. rewrite flush_job. rewrite decide_True by lia. by rewrite Nat.sub_0_r.
  - simpl. destruct (js !! k) as [[| |]|] eqn:Ek; try apply IH.
    + rewrite filter_cons, IH. simpl mark_job.
      destruct (decide (k = i)) as [->|Hne].
      * rewrite list_lookup_insert_eq by (by eapply lookup_lt_Some). by rewrite Ek.
      * by rewrite list_lookup_insert_ne.
    + rewrite filter_cons, IH. simpl mark_job.
      destruct (decide (k = i)) as [->|Hne].
      * rewrite list_lookup_insert_eq by (by eapply lookup_lt_Some). by rewrite Ek.
      * by rewrite list_lookup_insert_ne.
Qed.

Lemma play_bound (sched : list nat) (js : list jstate) (m : mark) :
  m ∈ play sched js → (mark_job m < length js)%nat.
Proof.
  intros Hin. destruct (decide (mark_job m < length js)%nat) as [|Hge]; [done|].
  assert (m ∈ filter (λ m', mark_job m' = mark_job m) (play sched js)) as Hf
    by (by apply list_elem_of_filter).
  rewrite play_job, lookup_ge_None_2 in Hf by lia. by apply elem_of_nil in Hf.
Qed.

Lemma play_fresh_job (sched : list nat) (K i : nat) :
  (i < K)%nat →
  filter (λ m, mark_job m = i) (play sched (replicate K Pending)) = [MStart i; MEnd i].
Proof. intros Hi. rewrite play_job, lookup_replicate_2 by done. done. Qed.

Lemma ends_filter (ms : list mark) (i : nat) :
  filter (λ j, j = i) (ends ms) = ends (filter (λ m, mark_job m = i) ms).
Proof.
  induction ms as [|[j|j] ms IH]; [done|..]; simpl ends; rewrite !filter_cons; simpl mark_job.
  - destruct (decide (j = i)); simpl; by rewrite IH.
  - destruct (decide (j = i)); simpl; by rewrite IH.
Qed.

Lemma ends_once (sched : list nat) (K i : nat) :
  filter (λ j, j = i) (ends (play sched (replicate K Pending)))
  = if decide (i < K)%nat then [i] else [].
Proof.
  rewrite ends_filter, play_job. destruct (decide (i < K)%nat).
  - by rewrite lookup_replicate_2.
  - by rewrite lookup_ge_None_2 by (rewrite length_replicate; lia).
Qed.

(** Every job of the phase is over once: the order in which the jobs are
    over is an arrangement of the jobs. *)
Lemma ends_play_permutation (sched : list nat) (K : nat) :
  ends (play sched (replicate K Pending)) ≡ₚ seq 0 K.
Proof.
  apply NoDup_Permutation.
  - apply NoDup_filter_once. intros i. rewrite ends_once.
    destruct (decide _); simpl; lia.
  - apply NoDup_seq.
  - intros i. rewrite elem_of_seq.
    assert (i ∈ ends (play sched (replicate K Pending))
            ↔ i ∈ filter (λ j, j = i) (ends (play sched (replicate K Pending)))) as ->.
    { rewrite list_elem_of_filter. tauto. }
    rewrite ends_once. destruct (decide (i < K)%nat).
    + rewrite list_elem_of_singleton. lia.
    + rewrite elem_of_nil. lia.
Qed.

Lemma ends_elem (ms : list mark) (i : nat) : i ∈ ends ms → MEnd i ∈ ms.
Proof.
  induction ms as [|[j|j] ms IH]; simpl.
  - by intros ?%elem_of_nil.
  - intros ?. right. auto.
  - intros [->|?]%elem_of_cons; [left | right; auto].
Qed.

(** The history of a phase is a block of its jobs. *)
Lemma play_phase_block (name : text) (sched : list nat) (K : nat) :
  phase_block name K (mark_event name <$> play sched (replicate K Pending)).
Proof.
  split.
  - intros e (m & -> & Hm)%list_elem_of_fmap.
    apply play_bound in Hm. rewrite length_replicate in Hm.
    exists (mark_job m). split; [done|]. destruct m; simpl; auto.
  - intros i Hi. unfold job_events.
    rewrite (filter_fmap_iff _ _ (λ m, mark_job m = i)).
    + by rewrite play_fresh_job.
    + intros [j|j]; simpl; split.
      * intros [[=]|[=]]. lia.
      * intros ->. by left.
      * intros [[=]|[=]]. lia.
      * intros ->. by right.
Qed.

(** ** [run_phase] *)

Lemma run_jobs_spec (ROOT : Path) (w : phase_world) (name : text)
    (prompts : list text) (ms : list mark) (st : state) :
  (∀ m, m ∈ ms → (mark_job m < length prompts)%nat) →
  ∃ st', run_jobs ROOT w name prompts ms st
         = (st', Ok (job_future ROOT w name prompts <$> ends ms))
    ∧ trace st' = trace st ++ (mark_event name <$> ms)
    ∧ console st' = console st.
Proof.
  revert st. induction ms as [|[i|i] ms IH]; intros st Hv.
  - exists st. simpl. by rewrite app_nil_r.
  - destruct (IH (emit (EvStart name (Z.of_nat i + 1)) st).1) as (st' & E & Ht & Hc).
    { intros m Hm. apply Hv. by right. }
    exists st'. split; [|split].
    + simpl. unfold mbind, M_bind, bind. simpl. apply E.
    + rewrite Ht. simpl. by rewrite <- (assoc_L (++)).
    + by rewrite Hc.
  - assert (is_Some (prompts !! i)) as [p Hp].
    { apply lookup_lt_is_Some. apply (Hv (MEnd i)). left. }
    pose proof (run_agent_outcome ROOT (pw_job w i) name (Z.of_nat i + 1) p st) as Ho.
    pose proof (run_agent_frame ROOT (pw_job w i) name (Z.of_nat i + 1) p st) as [Hc1 Ht1].
    destruct (run_agent ROOT (pw_job w i) name (Z.of_nat i + 1) p st) as [st1 r] eqn:Er.
    simpl in Ho, Hc1, Ht1.
    destruct (IH (emit (EvEnd name (Z.of_nat i + 1)) st1).1) as (st' & E & Ht & Hc).
    { intros m Hm. apply Hv. by right. }
    exists st'. split; [|split].
    + simpl. rewrite Hp. unfold mbind, M_bind, bind, attempt. rewrite Er.
      simpl. simpl in E. rewrite E. simpl.
      unfold job_future at 2. by rewrite Hp, Ho.
    + rewrite Ht. simpl. rewrite Ht1. by rewrite <- (assoc_L (++)).
    + rewrite Hc. simpl. by rewrite Hc1.
Qed.

Lemma collect_cons_ok (name : text) (r : text * Z) (futs : list (result (text * Z)))
    (results : list (text * Z)) (st : state) :
  collect name (Ok r :: futs) results st
  = collect name futs (results ++ [r]) (reported name r st).
Proof. by destruct r. Qed.

Lemma collect_cons_raise (name : text) (e : exn) (futs : list (result (text * Z)))
    (results : list (text * Z)) (st : state) :
  collect name (Raise e :: futs) results st = (st, Raise e).
Proof. reflexivity. Qed.

(** The loop over the futures touches the console only. *)
Lemma collect_frame (name : text) (futs : list (result (text * Z)))
    (results : list (text * Z)) (st : state) :
  trace (collect name futs results st).1 = trace st
  ∧ fs (collect name futs results st).1 = fs st.
Proof.
  revert results st. induction futs as [|[r|e] futs IH]; intros results st;
    [done| |done].
  rewrite collect_cons_ok.
  by destruct (IH (results ++ [r]) (reported name r st)) as [-> ->].
Qed.

Lemma collect_values {I} (name : text) (fut : I → result (text * Z))
    (val : I → text * Z) (l : list I) (results : list (text * Z)) (st : state) :
  (∀ i, i ∈ l → fut i = Ok (val i)) →
  (collect name (fut <$> l) results st).2 = Ok (results ++ (val <$> l)).
Proof.
  revert results st. induction l as [|i l IH]; intros results st H.
  - simpl. by rewrite app_nil_r.
  - rewrite !fmap_cons, (H i) by left. rewrite collect_cons_ok.
    rewrite IH by (intros j Hj; apply H; by right).
    by rewrite <- (assoc_L (++)).
Qed.

Lemma collect_ok_inv (name : text) (futs : list (result (text * Z)))
    (results rs : list (text * Z)) (st : state) :
  (collect name futs results st).2 = Ok rs →
  Forall (λ f, is_ok f = true) futs ∧ length rs = (length results + length futs)%nat.
Proof.
  revert results st. induction futs as [|[r|e] futs IH]; intros results st.
  - simpl. intros [= <-]. split; [done|lia].
  - rewrite collect_cons_ok. intros H.
    apply IH in H as [H1 H2]. split; [by constructor|].
    rewrite H2, length_app. simpl. lia.
  - by rewrite collect_cons_raise.
Qed.

Lemma collect_raise_inv (name : text) (futs : list (result (text * Z)))
    (results : list (text * Z)) (st : state) (e : exn) :
  (collect name futs results st).2 = Raise e → Raise e ∈ futs.
Proof.
  revert results st. induction futs as [|[r|e'] futs IH]; intros results st.
  - done.
  - rewrite collect_cons_ok. intros H. right. by eapply IH.
  - rewrite collect_cons_raise. intros [= ->]. left.
Qed.

(** A phase without jobs: the pool cannot be made. *)
Lemma run_phase_empty (ROOT : Path) (w : phase_world) (name : text) (st : state) :
  run_phase ROOT w name [] st = (announced name [] st, Raise ValueError).
Proof. reflexivity. Qed.

(** A phase with jobs, in full: its history is a block of its jobs, and
    what it returns is what the loop over the futures gives. *)
Lemma run_phase_spec (ROOT : Path) (w : phase_world) (name : text)
    (prompts : list text) (st : state) :
  prompts ≠ [] →
  let order := ends (play (pw_sched w) (replicate (length prompts) Pending)) in
  ∃ st1,
    trace st1 = trace st
                ++ (mark_event name <$> play (pw_sched w) (replicate (length prompts) Pending))
    ∧ run_phase ROOT w name prompts st
      = collect name (job_future ROOT w name prompts <$> order) [] st1.
Proof.
  intros Hne order.
  destruct (run_jobs_spec ROOT w name prompts
              (play (pw_sched w) (replicate (length prompts) Pending))
              (announced name prompts st)) as (st1 & E & Ht & _).
  { intros m Hm%play_bound. by rewrite length_replicate in Hm. }
  exists st1. split; [done|].
  unfold run_phase, ThreadPoolExecutor.
  rewrite bool_decide_eq_false_2 by (by destruct prompts).
  unfold mbind, M_bind, bind, mret, M_ret, ret. simpl.
  unfold announced in E. simpl in E. rewrite E. done.
Qed.

Lemma run_phase_trace (ROOT : Path) (w : phase_world) (name : text)
    (prompts : list text) (st : state) :
  prompts ≠ [] →
  ∃ t, trace (run_phase ROOT w name prompts st).1 = trace st ++ t
       ∧ phase_block name (length prompts) t.
Proof.
  intros Hne. destruct (run_phase_spec ROOT w name prompts st Hne) as (st1 & Ht & E).
  eexists. split; [|apply play_phase_block].
  rewrite E. destruct (collect_frame name
    (job_future ROOT w name prompts
       <$> ends (play (pw_sched w) (replicate (length prompts) Pending))) [] st1) as [-> _].
  apply Ht.
Qed.

Lemma job_future_sound (ROOT : Path) (w : phase_world) (name : text)
    (prompts : list text) (i : nat) :
  phase_sound ROOT w prompts → (i < length prompts)%nat →
  job_future ROOT w name prompts i = Ok (job_value ROOT w name prompts i).
Proof.
  intros Hs Hi. unfold job_value.
  destruct (lookup_lt_is_Some_2 prompts i Hi) as [p Hp].
  unfold job_future. rewrite Hp.
  destruct (agent_outcome_sound ROOT (pw_job w i) name (Z.of_nat i + 1) p (Hs i p Hp))
    as [code ->]. done.
Qed.

(** When every command starts and every report is taken, the phase
    returns the values of its jobs, in the order in which they are
    over. *)
Lemma run_phase_sound (ROOT : Path) (w : phase_world) (name : text)
    (prompts : list text) (st : state) :
  prompts ≠ [] → phase_sound ROOT w prompts →
  (run_phase ROOT w name prompts st).2
  = Ok (job_value ROOT w name prompts
          <$> ends (play (pw_sched w) (replicate (length prompts) Pending))).
Proof.
  intros Hne Hs. destruct (run_phase_spec ROOT w name prompts st Hne) as (st1 & _ & ->).
  rewrite (collect_values name _ (job_value ROOT w name prompts)); [done|].
  intros i Hi. apply job_future_sound; [done|].
  apply ends_elem, play_bound in Hi. by rewrite length_replicate in Hi.
Qed.

(** When the phase returns, every command has started and every report
    has been taken, and there is a result for every job. *)
Lemma run_phase_ok_inv (ROOT : Path) (w : phase_world) (name : text)
    (prompts : list text) (st : state) (rs : list (text * Z)) :
  (run_phase ROOT w name prompts st).2 = Ok rs →
  phase_sound ROOT w prompts ∧ length rs = length prompts.
Proof.
  destruct prompts as [|p0 prompts'] eqn:Ep; [done|]. rewrite <- Ep. intros H.
  assert (prompts ≠ []) as Hne by (by rewrite Ep).
  destruct (run_phase_spec ROOT w name prompts st Hne) as (st1 & _ & E).
  rewrite E in H. apply collect_ok_inv in H as [Hok Hlen].
  pose proof (ends_play_permutation (pw_sched w) (length prompts)) as Hperm.
  split.
  - intros i p Hp.
    assert (i ∈ ends (play (pw_sched w) (replicate (length prompts) Pending))) as Hi.
    { rewrite Hperm, elem_of_seq. apply lookup_lt_Some in Hp. lia. }
    rewrite list.Forall_forall in Hok.
    specialize (Hok (job_future ROOT w name prompts i)
                  (list_elem_of_fmap_2 _ _ _ Hi)).
    unfold job_future in Hok. rewrite Hp in Hok.
    destruct (agent_outcome _ _ _ _ _) as [r|] eqn:Eo; [|done].
    by eapply agent_outcome_ok.
  - rewrite Hlen, length_fmap, Hperm, length_seq. done.
Qed.

(** The only exceptions a phase with jobs lets through are those of its
    jobs. *)
Lemma run_phase_raise_inv (ROOT : Path) (w : phase_world) (name : text)
    (prompts : list text) (st : state) (e : exn) :
  prompts ≠ [] → (run_phase ROOT w name prompts st).2 = Raise e →
  e = StartError ∨ e = WriteError.
Proof.
  intros Hne H. destruct (run_phase_spec ROOT w name prompts st Hne) as (st1 & _ & E).
  rewrite E in H. apply collect_raise_inv in H.
  apply list_elem_of_fmap in H as (i & Hi & Hin). unfold job_future in Hi.
  apply ends_elem, play_bound in Hin. rewrite length_replicate in Hin.
  destruct (lookup_lt_is_Some_2 prompts i Hin) as [p Hp]. rewrite Hp in Hi.
  symmetry in Hi. by eapply agent_outcome_raise.
Qed.

(** C1.  A phase with K jobs returns exactly K results, one for each of
    its jobs, whether a job succeeds, fails with a non-zero status or
    runs into the timeout: the list returned is an arrangement of the
    list that holds, at position i, what [run_agent] returns for job
    i.  The phase has at least one job, every command is started and
    every report is written. *)
Theorem run_phase_one_result_per_job (ROOT : Path) (w : phase_world) (name : text)
    (prompts : list text) (st : state) :
  prompts ≠ [] → phase_sound ROOT w prompts →
  ∃ st' results per_job,
    run_phase ROOT w name prompts st = (st', Ok results)
    ∧ length results = length prompts
    ∧ results ≡ₚ per_job
    ∧ ∀ i p, prompts !! i = Some p →
        ∃ r, per_job !! i = Some r
             ∧ ∀ s, (run_agent ROOT (pw_job w i) name (Z.of_nat i + 1) p s).2 = Ok r.
Proof.
  intros Hne Hs.
  pose proof (run_phase_sound ROOT w name prompts st Hne Hs) as E.
  pose proof (ends_play_permutation (pw_sched w) (length prompts)) as Hperm.
  destruct (run_phase ROOT w name prompts st) as [st' r]. simpl in E. subst r.
  exists st', (job_value ROOT w name prompts
                 <$> ends (play (pw_sched w) (replicate (length prompts) Pending))),
    (job_value ROOT w name prompts <$> seq 0 (length prompts)).
  split; [done|]. split; [|split].
  - by rewrite length_fmap, Hperm, length_seq.
  - by apply fmap_Permutation.
  - intros i p Hp. pose proof (lookup_lt_Some _ _ _ Hp) as Hi.
    exists (job_value ROOT w name prompts i). split.
    + by rewrite list_lookup_fmap, lookup_seq_lt.
    + intros s. rewrite run_agent_outcome.
      rewrite <- (job_future_sound ROOT w name prompts i Hs Hi).
      unfold job_future. by rewrite Hp.
Qed.

Lemma run_phase_one_result_per_job_witness :
  ∃ st' results per_job,
    run_phase ex_root ex_phase_mixed (lit "docs") (DOC_PROMPTS) st0 = (st', Ok results)
    ∧ length results = length DOC_PROMPTS
    ∧ results ≡ₚ per_job
    ∧ ∀ i p, DOC_PROMPTS !! i = Some p →
        ∃ r, per_job !! i = Some r
             ∧ ∀ s, (run_agent ex_root (pw_job ex_phase_mixed i) (lit "docs")
                       (Z.of_nat i + 1) p s).2 = Ok r.
Proof.
  apply run_phase_one_result_per_job.
  - discriminate.
  - intros i p _. unfold job_sound. simpl.
    repeat case_bool_decide; split; reflexivity.
Defined.

(** ** [main] *)

Lemma main_spec (ROOT : Path) (w : run_world) (st : state) :
  main ROOT w st
  = match (phase1 ROOT w st).2 with
    | Raise e => ((phase1 ROOT w st).1, Raise e)
    | Ok r1 =>
        match (phase2 ROOT w st).2 with
        | Raise e => ((phase2 ROOT w st).1, Raise e)
        | Ok r2 =>
            match (phase3 ROOT w st).2 with
            | Raise e => ((phase3 ROOT w st).1, Raise e)
            | Ok r3 =>
                print (tally_line (count_ok (r1 ++ r2 ++ r3)) (length (r1 ++ r2 ++ r3)))
                      (phase3 ROOT w st).1
            end
        end
    end.
Proof.
  unfold main, phase3, phase2, phase1, mbind, M_bind, bind.
  destruct (run_phase ROOT (rw_phase w 0) _ _ st) as [st1 [r1|e1]]; [|done].
  cbn [fst snd].
  destruct (run_phase ROOT (rw_phase w 1) _ _ st1) as [st2 [r2|e2]]; [|done].
  cbn [fst snd].
  destruct (run_phase ROOT (rw_phase w 2) _ _ st2) as [st3 [r3|e3]]; [|done].
  cbn [fst snd]. rewrite app_nil_l, <- (assoc_L (++)). reflexivity.
Qed.

Lemma count_ok_length (rs : list (text * Z)) :
  count_ok rs = length (filter (λ r, r.2 = 0%Z) rs).
Proof.
  unfold count_ok. induction (filter _ rs) as [|r l IH]; [done|].
  simpl. f_equal. exact IH.
Qed.

(** The history of a run: the block of the first phase, then the block
    of the second if the first has returned, then the block of the third
    if the second has returned. *)
Lemma main_history (ROOT : Path) (w : run_world) (st : state) :
  ∃ t1 t2 t3,
    trace (main ROOT w st).1 = trace st ++ t1 ++ t2 ++ t3
    ∧ phase_block (lit "implementation") (length IMPLEMENTATION_PROMPTS) t1
    ∧ match (phase1 ROOT w st).2 with
      | Raise _ => t2 = [] ∧ t3 = []
      | Ok _ =>
          phase_block (lit "bugfix") (length BUGFIX_PROMPTS) t2
          ∧ match (phase2 ROOT w st).2 with
            | Raise _ => t3 = []
            | Ok _ => phase_block (lit "docs") (length DOC_PROMPTS) t3
            end
      end.
Proof.
  rewrite main_spec.
  destruct (run_phase_trace ROOT (rw_phase w 0) (lit "implementation")
              IMPLEMENTATION_PROMPTS st) as (t1 & H1 & B1); [done|].
  destruct (run_phase_trace ROOT (rw_phase w 1) (lit "bugfix")
              BUGFIX_PROMPTS (phase1 ROOT w st).1) as (t2 & H2 & B2); [done|].
  destruct (run_phase_trace ROOT (rw_phase w 2) (lit "docs")
              DOC_PROMPTS (phase2 ROOT w st).1) as (t3 & H3 & B3); [done|].
  fold (phase1 ROOT w st) in H1. fold (phase2 ROOT w st) in H2.
  fold (phase3 ROOT w st) in H3.
  destruct (phase1 ROOT w st).2 as [r1|e1].
  - destruct (phase2 ROOT w st).2 as [r2|e2].
    + exists t1, t2, t3. split; [|done].
      assert (trace (phase3 ROOT w st).1 = trace st ++ t1 ++ t2 ++ t3) as <-
        by (by rewrite H3, H2, H1, <- !(assoc_L (++))).
      by destruct (phase3 ROOT w st).2.
    + exists t1, t2, []. split; [|done]. cbn [fst].
      by rewrite H2, H1, app_nil_r, <- !(assoc_L (++)).
  - exists t1, [], []. split; [|done]. cbn [fst]. by rewrite H1, !app_nil_r.
Qed.

(** A block of at least one job is not empty. *)
Lemma phase_block_nonempty (name : text) (K : nat) (t : list event) :
  (0 < K)%nat → phase_block name K t → t ≠ [].
Proof. intros HK [_ H] ->. by specialize (H 0%nat HK). Qed.

Lemma phase_block_phase (name : text) (K : nat) (t : list event) (e : event) :
  phase_block name K t → e ∈ t → event_phase e = name.
Proof. intros [H _] Hin. by destruct (H e Hin) as (i & _ & [-> | ->]). Qed.

(** When every command starts and every report is taken, every phase
    returns. *)
Lemma main_sound (ROOT : Path) (w : run_world) (st : state) :
  run_sound ROOT w →
  ∃ r1 r2 r3,
    (phase1 ROOT w st).2 = Ok r1 ∧ (phase2 ROOT w st).2 = Ok r2
    ∧ (phase3 ROOT w st).2 = Ok r3
    ∧ length r1 = length IMPLEMENTATION_PROMPTS
    ∧ length r2 = length BUGFIX_PROMPTS
    ∧ length r3 = length DOC_PROMPTS.
Proof.
  intros Hs.
  pose proof (Hs 0%nat _ _ eq_refl) as H1.
  pose proof (Hs 1%nat _ _ eq_refl) as H2.
  pose proof (Hs 2%nat _ _ eq_refl) as H3.
  eexists _, _, _.
  split; [by apply run_phase_sound|]. split; [by apply run_phase_sound|].
  split; [by apply run_phase_sound|].
  rewrite !length_fmap, !ends_play_permutation, !length_seq. done.
Qed.

(** When [main] returns, every command has started and every report has
    been taken. *)
Lemma main_ok_inv (ROOT : Path) (w : run_world) (st : state) (u : unit) :
  (main ROOT w st).2 = Ok u → run_sound ROOT w.
Proof.
  rewrite main_spec. intros H.
  destruct (phase1 ROOT w st).2 as [r1|] eqn:E1; [|done].
  destruct (phase2 ROOT w st).2 as [r2|] eqn:E2; [|done].
  destruct (phase3 ROOT w st).2 as [r3|] eqn:E3; [|done].
  apply run_phase_ok_inv in E1 as [S1 _].
  apply run_phase_ok_inv in E2 as [S2 _].
  apply run_phase_ok_inv in E3 as [S3 _].
  intros [|[|[|k]]] name prompts [=]; by subst.
Qed.

(** C2.  The phases never overlap.  The history of a run is the block of
    the jobs of "implementation", then the block of the jobs of
    "bugfix", then the block of the jobs of "docs"; in a block every job
    of the phase starts once and is over once and no other job runs.  A
    later block is there only when the phase before it has returned its
    full list of results, and all three are there when every command
    starts and every report is written. *)
Theorem phases_never_overlap (ROOT : Path) (w : run_world) (st : state) :
  ∃ t1 t2 t3,
    trace (main ROOT w st).1 = trace st ++ t1 ++ t2 ++ t3
    ∧ phase_block (lit "implementation") (length IMPLEMENTATION_PROMPTS) t1
    ∧ (t2 = [] ∨ phase_block (lit "bugfix") (length BUGFIX_PROMPTS) t2)
    ∧ (t3 = [] ∨ phase_block (lit "docs") (length DOC_PROMPTS) t3)
    ∧ (t2 ≠ [] → ∃ r1, (phase1 ROOT w st).2 = Ok r1
                       ∧ length r1 = length IMPLEMENTATION_PROMPTS)
    ∧ (t3 ≠ [] → t2 ≠ [] ∧ ∃ r2, (phase2 ROOT w st).2 = Ok r2
                                 ∧ length r2 = length BUGFIX_PROMPTS)
    ∧ (run_sound ROOT w → t2 ≠ [] ∧ t3 ≠ []).
Proof.
  destruct (main_history ROOT w st) as (t1 & t2 & t3 & Ht & B1 & H).
  exists t1, t2, t3. split; [done|]. split; [done|].
  destruct (phase1 ROOT w st).2 as [r1|e1] eqn:E1.
  - destruct H as [B2 H].
    assert (t2 ≠ []) as N2
      by (apply (phase_block_nonempty _ _ _ (Nat.lt_0_succ _) B2)).
    destruct (run_phase_ok_inv _ _ _ _ _ _ E1) as [_ L1].
    destruct (phase2 ROOT w st).2 as [r2|e2] eqn:E2.
    + assert (t3 ≠ []) as N3
        by (apply (phase_block_nonempty _ _ _ (Nat.lt_0_succ _) H)).
      destruct (run_phase_ok_inv _ _ _ _ _ _ E2) as [_ L2].
      split_and!; [by right | by right | by eauto | by eauto | done].
    + subst t3. split_and!; [by right | by left | by eauto | done |].
      intros Hs. destruct (main_sound ROOT w st Hs) as (? & ? & ? & _ & ? & _).
      congruence.
  - destruct H as [-> ->]. split_and!; [by left | by left | done | done |].
    intros Hs. destruct (main_sound ROOT w st Hs) as (? & ? & ? & ? & _).
    congruence.
Qed.

(** A run in which every command starts and every report is taken ends
    with the tally of its eighteen results. *)
Lemma main_tally (ROOT : Path) (w : run_world) (st : state) :
  run_sound ROOT w →
  ∃ r1 r2 r3,
    (phase1 ROOT w st).2 = Ok r1
    ∧ (phase2 ROOT w st).2 = Ok r2
    ∧ (phase3 ROOT w st).2 = Ok r3
    ∧ main ROOT w st
      = print (tally_line (count_ok (r1 ++ r2 ++ r3)) (length (r1 ++ r2 ++ r3)))
              (phase3 ROOT w st).1
    ∧ length (r1 ++ r2 ++ r3)
      = (length IMPLEMENTATION_PROMPTS + length BUGFIX_PROMPTS + length DOC_PROMPTS)%nat.
Proof.
  intros Hs. destruct (main_sound ROOT w st Hs) as (r1 & r2 & r3 & E1 & E2 & E3 & L1 & L2 & L3).
  exists r1, r2, r3. split; [done|]. split; [done|]. split; [done|].
  split; [by rewrite main_spec, E1, E2, E3|].
  by rewrite !length_app, L1, L2, L3.
Qed.

(** C5.  At the end of a run the count of successes is the number of
    results, over all phases, whose exit status is exactly 0, and the
    total is the number of all results, which is the sum of the job
    counts of the phases; the results are those of the three phases in
    the order of the phases.  Every command starts and every report is
    written, so that the run reaches its end. *)
Theorem summary_counts (ROOT : Path) (w : run_world) (st : state) :
  run_sound ROOT w →
  ∃ r1 r2 r3,
    (phase1 ROOT w st).2 = Ok r1
    ∧ (phase2 ROOT w st).2 = Ok r2
    ∧ (phase3 ROOT w st).2 = Ok r3
    ∧ main ROOT w st
      = print (tally_line (count_ok (r1 ++ r2 ++ r3)) (length (r1 ++ r2 ++ r3)))
              (phase3 ROOT w st).1
    ∧ count_ok (r1 ++ r2 ++ r3) = length (filter (λ r, r.2 = 0%Z) (r1 ++ r2 ++ r3))
    ∧ length (r1 ++ r2 ++ r3)
      = (length IMPLEMENTATION_PROMPTS + length BUGFIX_PROMPTS + length DOC_PROMPTS)%nat
    ∧ length (r1 ++ r2 ++ r3) = 18%nat.
Proof.
  intros Hs. destruct (main_tally ROOT w st Hs) as (r1 & r2 & r3 & E1 & E2 & E3 & E & L).
  exists r1, r2, r3. split; [done|]. split; [done|]. split; [done|].
  split; [done|]. split; [apply count_ok_length|]. split; [done|]. by rewrite L.
Qed.

Lemma summary_counts_witness :
  ∃ r1 r2 r3,
    (phase1 ex_root ex_run st0).2 = Ok r1
    ∧ (phase2 ex_root ex_run st0).2 = Ok r2
    ∧ (phase3 ex_root ex_run st0).2 = Ok r3
    ∧ main ex_root ex_run st0
      = print (tally_line (count_ok (r1 ++ r2 ++ r3)) (length (r1 ++ r2 ++ r3)))
              (phase3 ex_root ex_run st0).1
    ∧ count_ok (r1 ++ r2 ++ r3) = length (filter (λ r, r.2 = 0%Z) (r1 ++ r2 ++ r3))
    ∧ length (r1 ++ r2 ++ r3)
      = (length IMPLEMENTATION_PROMPTS + length BUGFIX_PROMPTS + length DOC_PROMPTS)%nat
    ∧ length (r1 ++ r2 ++ r3) = 18%nat.
Proof.
  apply summary_counts. intros k name prompts _ i p _. split; reflexivity.
Defined.

Lemma script_spec (ROOT : Path) (w : run_world) (st : state) :
  script ROOT w st = if rw_mkdir w then main ROOT w st else (st, Raise MkdirError).
Proof. unfold script, mbind, M_bind, bind, mkdir. by destruct (rw_mkdir w). Qed.


(** A phase with a job whose command cannot be started raises. *)
Lemma run_phase_unstarted (ROOT : Path) (w : phase_world) (name : text)
    (prompts : list text) (i : nat) (p : text) (st : state) :
  prompts !! i = Some p →
  p_starts (os_exec (pw_job w i) (command p) (str_path ROOT)) = false →
  ∃ e, (run_phase ROOT w name prompts st).2 = Raise e.
Proof.
  intros Hp Hs. destruct (run_phase ROOT w name prompts st).2 as [rs|e] eqn:E; [|eauto].
  apply run_phase_ok_inv in E as [Hsound _].
  destruct (Hsound i p Hp) as [Hs' _]. congruence.
Qed.

(** C3, as the code has it.  When the command of a job cannot be
    started, [run_agent] raises the start error and leaves the state as
    it is: the job has no result and no report.  The other jobs of its
    phase still run to their end, each of them once, but [run_phase]
    raises, the run ends with status 1, and no job of a later phase
    runs. *)
Theorem start_failure_aborts_run (ROOT : Path) (w : run_world) (k : nat)
    (name : text) (prompts : list text) (i : nat) (p : text) (st : state) :
  phase_table !! k = Some (name, prompts) →
  prompts !! i = Some p →
  p_starts (os_exec (pw_job (rw_phase w k) i) (command p) (str_path ROOT)) = false →
  (∀ s, run_agent ROOT (pw_job (rw_phase w k) i) name (Z.of_nat i + 1) p s
        = (s, Raise StartError))
  ∧ (∀ s, ∃ e t,
        (run_phase ROOT (rw_phase w k) name prompts s).2 = Raise e
        ∧ trace (run_phase ROOT (rw_phase w k) name prompts s).1 = trace s ++ t
        ∧ phase_block name (length prompts) t)
  ∧ exit_status (main ROOT w st).2 = 1%Z
  ∧ ∃ t, trace (main ROOT w st).1 = trace st ++ t
         ∧ ∀ e, e ∈ t → ∃ k' name' prompts',
             (k' ≤ k)%nat ∧ phase_table !! k' = Some (name', prompts')
             ∧ event_phase e = name'.
Proof.
  intros Hk Hp Hs. split_and!.
  - intros s. rewrite run_agent_eq. by rewrite capture_unstarted.
  - intros s.
    destruct (run_phase_unstarted ROOT (rw_phase w k) name prompts i p s Hp Hs) as [e He].
    destruct (run_phase_trace ROOT (rw_phase w k) name prompts s) as (t & Ht & Hb).
    { intros ->. done. }
    eauto.
  - destruct (main ROOT w st).2 as [u|e] eqn:E; [|done].
    apply main_ok_inv in E. destruct (E k name prompts Hk i p Hp) as [Hs' _].
    congruence.
  - destruct (main_history ROOT w st) as (t1 & t2 & t3 & Ht & B1 & H).
    exists (t1 ++ t2 ++ t3). split; [done|].
    assert (∀ e, e ∈ t1 → ∃ k' name' prompts',
              k' = 0%nat ∧ phase_table !! k' = Some (name', prompts')
              ∧ event_phase e = name') as In1.
    { intros e He. eexists 0%nat, _, _. split; [done|]. split; [done|].
      by eapply phase_block_phase. }
    destruct k as [|[|[|k]]]; [| | |done]; injection Hk as <- <-.
    + destruct (run_phase_unstarted ROOT (rw_phase w 0) (lit "implementation")
                  IMPLEMENTATION_PROMPTS i p st Hp Hs) as [e He].
      fold (phase1 ROOT w st) in He. rewrite He in H. destruct H as [-> ->].
      rewrite !app_nil_r. intros e' He'.
      destruct (In1 e' He') as (k' & n' & p' & -> & ? & ?). eauto 10.
    + destruct (run_phase_unstarted ROOT (rw_phase w 1) (lit "bugfix")
                  BUGFIX_PROMPTS i p (phase1 ROOT w st).1 Hp Hs) as [e He].
      fold (phase2 ROOT w st) in He. rewrite He in H.
      intros e' [He'|He']%elem_of_app.
      { destruct (In1 e' He') as (k' & n' & p' & -> & ? & ?). eauto 10. }
      destruct (phase1 ROOT w st).2.
      * destruct H as [B2 ->]. rewrite app_nil_r in He'.
        eexists 1%nat, _, _. split; [done|]. split; [done|].
        by eapply phase_block_phase.
      * destruct H as [-> ->]. by apply elem_of_nil in He'.
    + intros e' [He'|[He'|He']%elem_of_app]%elem_of_app.
      { destruct (In1 e' He') as (k' & n' & p' & -> & ? & ?).
        eexists 0%nat, _, _. split; [lia|]. eauto. }
      * destruct (phase1 ROOT w st).2.
        -- destruct H as [B2 _].
           eexists 1%nat, _, _. split; [lia|]. split; [done|].
           by eapply phase_block_phase.
        -- destruct H as [-> _]. by apply elem_of_nil in He'.
      * destruct (phase1 ROOT w st).2.
        -- destruct H as [_ H]. destruct (phase2 ROOT w st).2.
           ++ eexists 2%nat, _, _. split; [lia|]. split; [done|].
              by eapply phase_block_phase.
           ++ subst t3. by apply elem_of_nil in He'.
        -- destruct H as [_ ->]. by apply elem_of_nil in He'.
Qed.

Lemma start_failure_aborts_run_witness :
  (∀ s, run_agent ex_root (pw_job (rw_phase ex_run_missing 0) 1) (lit "implementation")
          (Z.of_nat 1 + 1)
          (lit "Implementer A02: improve code AI pane with plan/build/bugfix and fast feedback.") s
        = (s, Raise StartError))
  ∧ (∀ s, ∃ e t,
        (run_phase ex_root (rw_phase ex_run_missing 0) (lit "implementation")
           IMPLEMENTATION_PROMPTS s).2 = Raise e
        ∧ trace (run_phase ex_root (rw_phase ex_run_missing 0) (lit "implementation")
                   IMPLEMENTATION_PROMPTS s).1 = trace s ++ t
        ∧ phase_block (lit "implementation") (length IMPLEMENTATION_PROMPTS) t)
  ∧ exit_status (main ex_root ex_run_missing st0).2 = 1%Z
  ∧ ∃ t, trace (main ex_root ex_run_missing st0).1 = trace st0 ++ t
         ∧ ∀ e, e ∈ t → ∃ k' name' prompts',
             (k' ≤ 0)%nat ∧ phase_table !! k' = Some (name', prompts')
             ∧ event_phase e = name'.
Proof.
  apply (start_failure_aborts_run ex_root ex_run_missing 0
           (lit "implementation") IMPLEMENTATION_PROMPTS 1); reflexivity.
Defined.

(** C3, as the specification has it, fails: in a run whose second job
    cannot be started while every other command starts, that job has no
    result, the run raises the start error, and the phases "bugfix" and
    "docs" never run. *)
Lemma start_failure_is_not_recorded :
  (run_agent ex_root (ex_job ex_missing) (lit "implementation") 2
     (lit "Implementer A02: improve code AI pane with plan/build/bugfix and fast feedback.")
     st0).2 = Raise StartError
  ∧ (main ex_root ex_run_missing st0).2 = Raise StartError
  ∧ Forall (λ e, event_phase e = lit "implementation")
      (trace (main ex_root ex_run_missing st0).1).
Proof.
  split; [by vm_compute|]. split; [by vm_compute|].
  apply (bool_decide_unpack _). by vm_compute.
Qed.

(** ** Trimming and the timeout marker *)

Lemma lstrip_keeps (a b : text) (c : N) :
  isspace c = false → ∃ a', lstrip (a ++ c :: b) = a' ++ c :: b.
Proof.
  intros Hc. induction a as [|x a IH]; simpl.
  - rewrite Hc. by exists [].
  - destruct (isspace x); [done|]. by exists (x :: a).
Qed.

Lemma rstrip_keeps (a : text) (c : N) :
  isspace c = false → rstrip (a ++ [c]) = a ++ [c].
Proof.
  intros Hc. unfold rstrip. rewrite reverse_snoc. simpl. rewrite Hc.
  by rewrite reverse_cons, reverse_involutive.
Qed.

(** Trimming keeps a marker that begins and ends with a character that
    is not white space. *)
Lemma strip_keeps_marker (a m : text) (c d : N) :
  isspace c = false → isspace d = false →
  (c :: m ++ [d]) `suffix_of` strip (a ++ c :: m ++ [d]).
Proof.
  intros Hc Hd. unfold strip.
  destruct (lstrip_keeps a (m ++ [d]) c Hc) as [a' ->].
  replace (a' ++ c :: m ++ [d]) with ((a' ++ c :: m) ++ [d])
    by (by rewrite <- (assoc_L (++))).
  rewrite rstrip_keeps by done. rewrite <- (assoc_L (++)). by exists a'.
Qed.

(** C4.  A job whose command is still at work after the 120 time units
    of the timeout has the exit status 124, and its captured stderr is
    the output buffered so far followed by the marker [TIMEOUT] on a
    line of its own; the marker is still the end of the stderr block of
    the report.  The command is started and the report is written. *)
Theorem timeout_yields_sentinel (ROOT : Path) (w : job_world) (phase : text)
    (idx : Z) (prompt : text) (st : state) :
  p_starts (os_exec w (command prompt) (str_path ROOT)) = true →
  (∀ d, p_runtime (os_exec w (command prompt) (str_path ROOT)) = Some d → 120 < d) →
  disk_ok w = true →
  ∃ out err,
    decode_captured (p_partial_stdout (os_exec w (command prompt) (str_path ROOT))) = Ok out
    ∧ decode_captured (p_partial_stderr (os_exec w (command prompt) (str_path ROOT))) = Ok err
    ∧ capture (os_exec w (command prompt) (str_path ROOT))
      = Ok (out, err ++ LF :: lit "TIMEOUT", 124%Z)
    ∧ (run_agent ROOT w phase idx prompt st).2
      = Ok (str_path (out_file_of ROOT phase idx (now w)), 124%Z)
    ∧ fs (run_agent ROOT w phase idx prompt st).1
        !! str_path (out_file_of ROOT phase idx (now w))
      = Some (join [LF] (body_of phase idx prompt 124%Z out (err ++ LF :: lit "TIMEOUT")))
    ∧ lit "TIMEOUT" `suffix_of` strip (err ++ LF :: lit "TIMEOUT").
Proof.
  intros Hs Hr Hd.
  destruct (capture_timeout _ Hs Hr) as (out & err & Ho & He & Hc).
  exists out, err. split; [done|]. split; [done|]. split; [done|].
  rewrite run_agent_eq, Hc, Hd. cbn [fst snd]. split; [done|]. split.
  - unfold written. cbn [fs]. apply lookup_insert_eq.
  - replace (err ++ LF :: lit "TIMEOUT") with ((err ++ [LF]) ++ lit "TIMEOUT")
      by (by rewrite <- (assoc_L (++))).
    by apply (strip_keeps_marker (err ++ [LF]) (lit "IMEOU") 84 84).
Qed.

Lemma timeout_yields_sentinel_witness :
  ∃ out err,
    decode_captured (p_partial_stdout (os_exec (ex_job ex_slow) (command (lit "say hi")) (str_path ex_root))) = Ok out
    ∧ decode_captured (p_partial_stderr (os_exec (ex_job ex_slow) (command (lit "say hi")) (str_path ex_root))) = Ok err
    ∧ capture (os_exec (ex_job ex_slow) (command (lit "say hi")) (str_path ex_root))
      = Ok (out, err ++ LF :: lit "TIMEOUT", 124%Z)
    ∧ (run_agent ex_root (ex_job ex_slow) (lit "docs") 3 (lit "say hi") st0).2
      = Ok (str_path (out_file_of ex_root (lit "docs") 3 (now (ex_job ex_slow))), 124%Z)
    ∧ fs (run_agent ex_root (ex_job ex_slow) (lit "docs") 3 (lit "say hi") st0).1
        !! str_path (out_file_of ex_root (lit "docs") 3 (now (ex_job ex_slow)))
      = Some (join [LF] (body_of (lit "docs") 3 (lit "say hi") 124%Z out
                           (err ++ LF :: lit "TIMEOUT")))
    ∧ lit "TIMEOUT" `suffix_of` strip (err ++ LF :: lit "TIMEOUT").
Proof.
  apply timeout_yields_sentinel.
  - reflexivity.
  - simpl. intros d [= <-]. reflexivity.
  - reflexivity.
Defined.


(** ** The report and its reader *)

Lemma take_until_app (stop : text) (l r : list text) :
  stop ∉ l → take_until stop (l ++ stop :: r) = l.
Proof.
  induction l as [|x l IH]; intros H; simpl.
  - by rewrite bool_decide_eq_true_2.
  - rewrite bool_decide_eq_false_2.
    + f_equal. apply IH. intros ?. apply H. by right.
    + intros ->. apply H. left.
Qed.

Lemma heading_line (phase : text) (idx : Z) :
  LF ∉ phase → LF ∉ lit "# " ++ phase ++ lit " Agent " ++ fmt_0d 2 idx.
Proof.
  intros Hp [H|[H|[H|H]%elem_of_app]%elem_of_app]%elem_of_app; try done.
  - revert H. lit_notin.
  - revert H. lit_notin.
  - by apply (plain_not LF _ (fmt_0d_chars 2 idx)) in H.
Qed.

Lemma prompt_line (prompt : text) : LF ∉ prompt → LF ∉ lit "- Prompt: " ++ prompt.
Proof. intros Hp [H|H]%elem_of_app; [|done]. revert H. lit_notin. Qed.

Lemma exit_line (code : Z) : LF ∉ lit "- Exit code: " ++ str_int code.
Proof.
  intros [H|H]%elem_of_app.
  - revert H. lit_notin.
  - rewrite str_int_fmt in H. by apply (plain_not LF _ (fmt_0d_chars 0 code)) in H.
Qed.

(** The lines of a report whose phase name and payload hold no line
    break. *)
Lemma body_lines (phase : text) (idx : Z) (prompt : text) (code : Z)
    (out err : text) :
  LF ∉ phase → LF ∉ prompt →
  split_on LF (join [LF] (body_of phase idx prompt code out err))
  = [ lit "# " ++ phase ++ lit " Agent " ++ fmt_0d 2 idx; [];
      lit "- Prompt: " ++ prompt; lit "- Exit code: " ++ str_int code; [];
      lit "## Stdout"; FENCE ]
    ++ split_on LF (strip out)
    ++ [ FENCE; []; lit "## Stderr"; FENCE ]
    ++ split_on LF (strip err)
    ++ [ FENCE; [] ].
Proof.
  intros Hph Hpr. unfold body_of. rewrite split_on_join.
  rewrite (split_on_notin LF _ (heading_line phase idx Hph)).
  cbn [fmap list_fmap concat].
  rewrite (split_on_notin LF _ (prompt_line prompt Hpr)).
  rewrite (split_on_notin LF _ (exit_line code)).
  rewrite (split_on_notin LF (lit "## Stdout")) by lit_notin.
  rewrite (split_on_notin LF (lit "## Stderr")) by lit_notin.
  rewrite (split_on_notin LF FENCE) by lit_notin.
  rewrite (split_on_notin LF []) by (by intros ?%elem_of_nil).
  rewrite app_nil_r. reflexivity.
Qed.

Lemma read_exit_code_body (phase : text) (idx : Z) (prompt : text) (code : Z)
    (out err : text) :
  LF ∉ phase → LF ∉ prompt →
  read_exit_code (join [LF] (body_of phase idx prompt code out err)) = Some code.
Proof.
  intros Hph Hpr. unfold read_exit_code. rewrite body_lines by done.
  cbn [app]. rewrite strip_prefix_app. cbn [mbind option_bind].
  apply parse_int_str_int.
Qed.

(** C7, as the code has it.  From the report of a job a reader gets back
    the exit status, the task payload and the two captured texts as they
    were written, which is with the white space at their ends trimmed:
    it takes the stdout block up to the first line that is a fence and
    the stderr block up to the closing fence of the report.  The phase
    name and the payload hold no line break, and no line of the trimmed
    stdout is a fence. *)
Theorem report_round_trip (phase : text) (idx : Z) (prompt : text) (code : Z)
    (out err : text) :
  LF ∉ phase → LF ∉ prompt → FENCE ∉ split_on LF (strip out) →
  read_report (join [LF] (body_of phase idx prompt code out err))
  = Some (code, prompt, strip out, strip err).
Proof.
  intros Hph Hpr Hf. unfold read_report. rewrite body_lines by done.
  cbn [app]. rewrite !strip_prefix_app. cbn [mbind option_bind].
  rewrite parse_int_str_int. cbn [mbind option_bind].
  rewrite take_until_app by done.
  rewrite drop_app_add. cbn [drop]. rewrite !drop_0.
  rewrite take_app_length' by (rewrite length_app; cbn [length]; lia).
  by rewrite !join_split_on.
Qed.

Lemma report_round_trip_witness :
  read_report (join [LF] (body_of (lit "docs") 3 (lit "say hi") (-9)
                            [32; 104; 233; 10; 8364; 10] []))
  = Some ((-9)%Z, lit "say hi", strip [32; 104; 233; 10; 8364; 10], strip []).
Proof.
  apply report_round_trip.
  - lit_notin.
  - lit_notin.
  - lit_notin.
Defined.

(** C7, as the specification has it, fails: a captured stdout of one
    blank and an empty captured stdout give the same report, so no
    reader gives back every captured text as it was. *)
Lemma report_is_not_verbatim :
  join [LF] (body_of (lit "docs") 1 (lit "p") 0 [32] [])
  = join [LF] (body_of (lit "docs") 1 (lit "p") 0 [] [])
  ∧ ¬ ∃ reader : text → Z * text * text * text,
        ∀ code prompt out err,
          reader (join [LF] (body_of (lit "docs") 1 prompt code out err))
          = (code, prompt, out, err).
Proof.
  assert (join [LF] (body_of (lit "docs") 1 (lit "p") 0 [32] [])
          = join [LF] (body_of (lit "docs") 1 (lit "p") 0 [] [])) as E
    by reflexivity.
  split; [exact E|]. intros [reader H].
  pose proof (H 0%Z (lit "p") [32] []) as H1.
  pose proof (H 0%Z (lit "p") [] []) as H2.
  rewrite E, H2 in H1. discriminate H1.
Qed.

(** C10.  When a call of [run_agent] returns, the path it returns is the
    path of the file it has written, and it has written no other file;
    the exit code it returns is the exit code in the body of that file,
    which a reader finds on the exit-code line when the phase name and
    the payload hold no line break. *)
Theorem returned_result_matches_artifact (ROOT : Path) (w : job_world)
    (phase : text) (idx : Z) (prompt : text) (st st' : state) (path : text)
    (code : Z) :
  run_agent ROOT w phase idx prompt st = (st', Ok (path, code)) →
  path = str_path (out_file_of ROOT phase idx (now w))
  ∧ ∃ out err,
      fs st' = <[path := join [LF] (body_of phase idx prompt code out err)]> (fs st)
      ∧ fs st' !! path = Some (join [LF] (body_of phase idx prompt code out err))
      ∧ (LF ∉ phase → LF ∉ prompt →
         read_exit_code (join [LF] (body_of phase idx prompt code out err)) = Some code).
Proof.
  rewrite run_agent_eq.
  destruct (capture _) as [[[out err] c]|e]; [|done].
  destruct (disk_ok w); [|done]. intros [= <- <- <-].
  split; [done|]. exists out, err. unfold written. cbn [fs].
  split; [done|]. split; [apply lookup_insert_eq|].
  apply read_exit_code_body.
Qed.

Lemma returned_result_matches_artifact_witness :
  str_path (out_file_of ex_root (lit "docs") 3 ex_time)
  = str_path (out_file_of ex_root (lit "docs") 3 (now (ex_job ex_failing)))
  ∧ ∃ out err,
      fs (run_agent ex_root (ex_job ex_failing) (lit "docs") 3 (lit "say hi") st0).1
      = <[str_path (out_file_of ex_root (lit "docs") 3 ex_time)
          := join [LF] (body_of (lit "docs") 3 (lit "say hi") 3 out err)]> (fs st0)
      ∧ fs (run_agent ex_root (ex_job ex_failing) (lit "docs") 3 (lit "say hi") st0).1
          !! str_path (out_file_of ex_root (lit "docs") 3 ex_time)
        = Some (join [LF] (body_of (lit "docs") 3 (lit "say hi") 3 out err))
      ∧ (LF ∉ lit "docs" → LF ∉ lit "say hi" →
         read_exit_code (join [LF] (body_of (lit "docs") 3 (lit "say hi") 3 out err))
         = Some 3%Z).
Proof.
  apply (returned_result_matches_artifact ex_root (ex_job ex_failing)
           (lit "docs") 3 (lit "say hi") st0).
  vm_compute. reflexivity.
Defined.

(** * Further properties of the script *)

(** ** [run_agent] *)

(** X1.  A job whose command starts and exits within the 120 time
    units of the timeout returns the path of its report and the return
    code of the command, and the report it writes is the template filled
    with that code and the decoded output. *)
Theorem completed_job_result (ROOT : Path) (w : job_world) (phase : text)
    (idx : Z) (prompt : text) (st : state) (d : N) :
  p_starts (os_exec w (command prompt) (str_path ROOT)) = true →
  p_runtime (os_exec w (command prompt) (str_path ROOT)) = Some d →
  d ≤ 120 →
  disk_ok w = true →
  ∃ out err,
    utf8_decode Replace (default [] (p_stdout (os_exec w (command prompt) (str_path ROOT))))
    = Ok out
    ∧ utf8_decode Replace (default [] (p_stderr (os_exec w (command prompt) (str_path ROOT))))
      = Ok err
    ∧ run_agent ROOT w phase idx prompt st
      = (written st (str_path (out_file_of ROOT phase idx (now w)))
           (join [LF] (body_of phase idx prompt
              (p_returncode (os_exec w (command prompt) (str_path ROOT))) out err)),
         Ok (str_path (out_file_of ROOT phase idx (now w)),
             p_returncode (os_exec w (command prompt) (str_path ROOT)))).
Proof.
  intros Hs Hr Hd Hdisk.
  destruct (capture_completed _ d Hs Hr Hd) as (out & err & Ho & He & Hc).
  exists out, err. split; [done|]. split; [done|].
  by rewrite run_agent_eq, Hc, Hdisk.
Qed.

Lemma completed_job_result_witness :
  ∃ out err,
    utf8_decode Replace (default [] (p_stdout (os_exec (ex_job ex_failing)
                                                 (command (lit "say hi")) (str_path ex_root))))
    = Ok out
    ∧ utf8_decode Replace (default [] (p_stderr (os_exec (ex_job ex_failing)
                                                   (command (lit "say hi")) (str_path ex_root))))
      = Ok err
    ∧ run_agent ex_root (ex_job ex_failing) (lit "docs") 3 (lit "say hi") st0
      = (written st0 (str_path (out_file_of ex_root (lit "docs") 3 (now (ex_job ex_failing))))
           (join [LF] (body_of (lit "docs") 3 (lit "say hi")
              (p_returncode (os_exec (ex_job ex_failing) (command (lit "say hi"))
                               (str_path ex_root))) out err)),
         Ok (str_path (out_file_of ex_root (lit "docs") 3 (now (ex_job ex_failing))),
             p_returncode (os_exec (ex_job ex_failing) (command (lit "say hi"))
                             (str_path ex_root)))).
Proof.
  apply (completed_job_result ex_root (ex_job ex_failing) (lit "docs") 3
           (lit "say hi") st0 7); reflexivity || (by vm_compute).
Defined.

(** X2.  Output that is ASCII is decoded to itself: under either
    handler the text is the list of the byte values. *)
Theorem decode_ascii (errors : handler) (s : bytes) :
  Forall (λ b, to_N b < 128) s → utf8_decode errors s = Ok (to_N <$> s).
Proof.
  induction s as [|b s IH]; intros H; [done|].
  inversion H as [|? ? Hb Hs]; subst.
  rewrite utf8_decode_cons. cbv zeta.
  destruct (N.ltb_spec (to_N b) 128); [|lia].
  by rewrite IH.
Qed.

Lemma decode_ascii_witness :
  utf8_decode Replace [x68; x69; x0a] = Ok (to_N <$> [x68; x69; x0a]).
Proof.
  apply decode_ascii. repeat constructor.
Defined.

(** X4.  When the disk refuses the report of a job whose command has
    started, [run_agent] raises the write error, and the script ends
    with status 1. *)
Theorem write_failure_aborts_run (ROOT : Path) (w : run_world) (k : nat)
    (name : text) (prompts : list text) (i : nat) (p : text) (st : state) :
  phase_table !! k = Some (name, prompts) →
  prompts !! i = Some p →
  p_starts (os_exec (pw_job (rw_phase w k) i) (command p) (str_path ROOT)) = true →
  disk_ok (pw_job (rw_phase w k) i) = false →
  (∀ s, (run_agent ROOT (pw_job (rw_phase w k) i) name (Z.of_nat i + 1) p s).2
        = Raise WriteError)
  ∧ exit_status (script ROOT w st).2 = 1%Z.
Proof.
  intros Hk Hp Hs Hd. split.
  - intros s. rewrite run_agent_eq.
    destruct (capture_started _ Hs) as (o & e & c & ->). by rewrite Hd.
  - rewrite script_spec. destruct (rw_mkdir w); [|done].
    destruct (main ROOT w st).2 as [u|e] eqn:E; [|done].
    apply main_ok_inv in E. destruct (E k name prompts Hk i p Hp) as [_ Hd'].
    congruence.
Qed.

Lemma write_failure_aborts_run_witness :
  (∀ s, (run_agent ex_root (pw_job (rw_phase ex_run_disk 1) 0) (lit "bugfix")
           (Z.of_nat 0 + 1)
           (lit "Bugfix B01: scan for renderer prop/type mismatches caused by new code features.")
           s).2
        = Raise WriteError)
  ∧ exit_status (script ex_root ex_run_disk st0).2 = 1%Z.
Proof.
  apply (write_failure_aborts_run ex_root ex_run_disk 1 (lit "bugfix")
           BUGFIX_PROMPTS 0); reflexivity.
Defined.

(** ** [run_phase] *)

(** X5.  [run_phase] returns a list exactly when the phase has at least
    one job, every command starts and every report is written.  When it
    raises, it raises [ValueError] for a phase without jobs, and the
    start error or the write error of one of its jobs otherwise. *)
Theorem run_phase_returns_iff (ROOT : Path) (w : phase_world) (name : text)
    (prompts : list text) (st : state) :
  ((∃ rs, (run_phase ROOT w name prompts st).2 = Ok rs)
   ↔ prompts ≠ [] ∧ phase_sound ROOT w prompts)
  ∧ (∀ e, (run_phase ROOT w name prompts st).2 = Raise e →
       (prompts = [] ∧ e = ValueError)
       ∨ (prompts ≠ [] ∧ (e = StartError ∨ e = WriteError))).
Proof.
  split; [split|].
  - intros [rs H]. split.
    + intros ->. by rewrite run_phase_empty in H.
    + by apply run_phase_ok_inv in H as [? _].
  - intros [Hne Hs]. rewrite run_phase_sound by done. eauto.
  - intros e H. destruct prompts as [|p0 prompts].
    + rewrite run_phase_empty in H. injection H as <-. by left.
    + right. split; [done|]. eapply run_phase_raise_inv; [|exact H]. done.
Qed.

(** ** The script *)

(** X6.  The only exceptions that end the script are the error of
    making the output directory, in which case nothing has been printed
    or written, the start error and the write error of a job: a timeout,
    a decoding error or a [ValueError] never escapes. *)
Theorem script_exceptions (ROOT : Path) (w : run_world) (st : state) (e : exn) :
  (script ROOT w st).2 = Raise e →
  (e = MkdirError ∧ rw_mkdir w = false ∧ (script ROOT w st).1 = st)
  ∨ (rw_mkdir w = true ∧ (e = StartError ∨ e = WriteError)).
Proof.
  rewrite script_spec. destruct (rw_mkdir w).
  - intros H. right. split; [done|]. rewrite main_spec in H.
    destruct (phase1 ROOT w st).2 as [r1|e1] eqn:E1.
    + destruct (phase2 ROOT w st).2 as [r2|e2] eqn:E2.
      * destruct (phase3 ROOT w st).2 as [r3|e3] eqn:E3; [done|].
        injection H as <-. eapply run_phase_raise_inv; [|exact E3]. done.
      * injection H as <-. eapply run_phase_raise_inv; [|exact E2]. done.
    + injection H as <-. eapply run_phase_raise_inv; [|exact E1]. done.
  - intros [= <-]. by left.
Qed.

Lemma script_exceptions_witness :
  (StartError = MkdirError ∧ rw_mkdir ex_run_missing = false
   ∧ (script ex_root ex_run_missing st0).1 = st0)
  ∨ (rw_mkdir ex_run_missing = true ∧ (StartError = StartError ∨ StartError = WriteError)).
Proof.
  apply (script_exceptions ex_root ex_run_missing st0 StartError). by vm_compute.
Defined.


(** ** The console and the files of a phase *)

Lemma foldl_put_union (l : list (text * text)) (m : gmap text text) :
  foldl put_file m l = list_to_map (reverse l) ∪ m.
Proof.
  revert m. induction l as [|[k v] l IH]; intros m.
  - simpl. by rewrite (left_id_L ∅ (∪)).
  - simpl. rewrite IH, reverse_cons, list_to_map_app. unfold put_file. simpl.
    rewrite <- (assoc_L (∪)). f_equal.
    by rewrite <- insert_union_l, (left_id_L ∅ (∪)).
Qed.

(** The file of a job is the file its call of [run_agent] writes. *)
Lemma run_agent_fs (ROOT : Path) (w : phase_world) (name : text)
    (prompts : list text) (i : nat) (p : text) (st : state) :
  prompts !! i = Some p →
  fs (run_agent ROOT (pw_job w i) name (Z.of_nat i + 1) p st).1
  = foldl put_file (fs st) (option_list (job_file ROOT w name prompts i)).
Proof.
  intros Hp. rewrite run_agent_eq. unfold job_file. rewrite Hp. simpl.
  destruct (capture _) as [[[out err] code]|e]; [|done].
  by destruct (disk_ok (pw_job w i)).
Qed.

Lemma run_jobs_fs (ROOT : Path) (w : phase_world) (name : text)
    (prompts : list text) (ms : list mark) (st : state) :
  (∀ m, m ∈ ms → (mark_job m < length prompts)%nat) →
  fs (run_jobs ROOT w name prompts ms st).1
  = foldl put_file (fs st) (omap (job_file ROOT w name prompts) (ends ms)).
Proof.
  revert st. induction ms as [|[i|i] ms IH]; intros st Hv.
  - done.
  - simpl. unfold mbind, M_bind, bind. cbn [emit].
    rewrite IH by (intros m Hm; apply Hv; by right). done.
  - assert (is_Some (prompts !! i)) as [p Hp].
    { apply lookup_lt_is_Some. apply (Hv (MEnd i)). left. }
    pose proof (run_agent_fs ROOT w name prompts i p st Hp) as Hfs.
    destruct (run_agent ROOT (pw_job w i) name (Z.of_nat i + 1) p st) as [st1 r] eqn:Er.
    cbn [fst] in Hfs.
    destruct (run_jobs_spec ROOT w name prompts ms
                (emit (EvEnd name (Z.of_nat i + 1)) st1).1) as (st' & E & _).
    { intros m Hm. apply Hv. by right. }
    pose proof (IH (emit (EvEnd name (Z.of_nat i + 1)) st1).1) as IH'.
    rewrite E in IH'. cbn [fst] in IH'.
    simpl run_jobs. rewrite Hp. unfold mbind, M_bind, bind, attempt. rewrite Er.
    cbn [emit]. cbn [emit fst] in E. rewrite E.
    unfold mret, M_ret, ret. cbn [fst].
    rewrite IH' by (intros m Hm; apply Hv; by right). cbn [emit fst fs].
    rewrite Hfs. simpl ends. simpl omap.
    destruct (job_file ROOT w name prompts i); done.
Qed.

Lemma collect_console {I} (name : text) (fut : I → result (text * Z))
    (val : I → text * Z) (l : list I) (results : list (text * Z)) (st : state) :
  (∀ i, i ∈ l → fut i = Ok (val i)) →
  console (collect name (fut <$> l) results st).1
  = console st ++ (completed_line name <$> (val <$> l)).
Proof.
  revert results st. induction l as [|i l IH]; intros results st H.
  - simpl. by rewrite app_nil_r.
  - rewrite !fmap_cons, (H i) by left. rewrite collect_cons_ok.
    rewrite IH by (intros j Hj; apply H; by right).
    unfold reported, print. cbn [fst console]. by rewrite <- (assoc_L (++)).
Qed.

(** A phase with jobs, with its console and its files. *)
Lemma run_phase_effects (ROOT : Path) (w : phase_world) (name : text)
    (prompts : list text) (st : state) :
  prompts ≠ [] →
  ∃ st1,
    console st1 = console st ++ [phase_line name (length prompts)]
    ∧ fs st1 = foldl put_file (fs st)
                 (omap (job_file ROOT w name prompts)
                    (ends (play (pw_sched w) (replicate (length prompts) Pending))))
    ∧ run_phase ROOT w name prompts st
      = collect name
          (job_future ROOT w name prompts
             <$> ends (play (pw_sched w) (replicate (length prompts) Pending))) [] st1.
Proof.
  intros Hne.
  assert (∀ m, m ∈ play (pw_sched w) (replicate (length prompts) Pending)
               → (mark_job m < length prompts)%nat) as Hv.
  { intros m Hm%play_bound. by rewrite length_replicate in Hm. }
  pose proof (run_jobs_fs ROOT w name prompts _ (announced name prompts st) Hv) as Hfs.
  destruct (run_jobs_spec ROOT w name prompts _ (announced name prompts st) Hv)
    as (st1 & E & _ & Hc).
  rewrite E in Hfs. cbn [fst] in Hfs.
  exists st1. split; [by rewrite Hc|]. split; [by rewrite Hfs|].
  unfold run_phase, ThreadPoolExecutor.
  rewrite bool_decide_eq_false_2 by (by destruct prompts).
  unfold mbind, M_bind, bind, mret, M_ret, ret. simpl.
  unfold announced in E. simpl in E. rewrite E. done.
Qed.

(** The console after a phase whose jobs all return. *)
Lemma run_phase_console_sound (ROOT : Path) (w : phase_world) (name : text)
    (prompts : list text) (st : state) :
  prompts ≠ [] → phase_sound ROOT w prompts →
  console (run_phase ROOT w name prompts st).1
  = console st ++ phase_line name (length prompts)
      :: (completed_line name
            <$> (job_value ROOT w name prompts
                   <$> ends (play (pw_sched w) (replicate (length prompts) Pending)))).
Proof.
  intros Hne Hs.
  destruct (run_phase_effects ROOT w name prompts st Hne) as (st1 & Hc & _ & ->).
  rewrite (collect_console name _ (job_value ROOT w name prompts)).
  - rewrite Hc. by rewrite <- (assoc_L (++)).
  - intros i Hi. apply job_future_sound; [done|].
    apply ends_elem, play_bound in Hi. by rewrite length_replicate in Hi.
Qed.

(** X7.  A phase whose jobs all return prints its announcement and then
    one line for each result, in the order of the list it returns; the
    line of a result names its exit code and its path. *)
Theorem run_phase_progress (ROOT : Path) (w : phase_world) (name : text)
    (prompts : list text) (st : state) :
  prompts ≠ [] → phase_sound ROOT w prompts →
  ∃ rs,
    (run_phase ROOT w name prompts st).2 = Ok rs
    ∧ console (run_phase ROOT w name prompts st).1
      = console st ++ phase_line name (length prompts) :: (completed_line name <$> rs).
Proof.
  intros Hne Hs. eexists. split; [by apply run_phase_sound|].
  by apply run_phase_console_sound.
Qed.

Lemma run_phase_progress_witness :
  ∃ rs,
    (run_phase ex_root ex_phase_mixed (lit "docs") DOC_PROMPTS st0).2 = Ok rs
    ∧ console (run_phase ex_root ex_phase_mixed (lit "docs") DOC_PROMPTS st0).1
      = console st0 ++ phase_line (lit "docs") (length DOC_PROMPTS)
                       :: (completed_line (lit "docs") <$> rs).
Proof.
  apply run_phase_progress.
  - discriminate.
  - intros i p _. unfold job_sound. simpl.
    repeat case_bool_decide; split; reflexivity.
Defined.

Lemma out_file_inj (ROOT : Path) (phase1 phase2 : text) (idx1 idx2 : Z)
    (t1 t2 : datetime) :
  SLASH ∉ phase1 → SLASH ∉ phase2 →
  str_path (out_file_of ROOT phase1 idx1 t1) = str_path (out_file_of ROOT phase2 idx2 t2) →
  phase1 = phase2 ∧ idx1 = idx2.
Proof.
  intros H1 H2 E. rewrite !out_file_plain in E by done.
  apply app_inv_head in E. by apply artifact_name_inj in E.
Qed.

Lemma job_file_key (ROOT : Path) (w : phase_world) (name : text)
    (prompts : list text) (i : nat) (k v : text) :
  job_file ROOT w name prompts i = Some (k, v) →
  k = str_path (out_file_of ROOT name (Z.of_nat i + 1) (now (pw_job w i)))
  ∧ (i < length prompts)%nat.
Proof.
  unfold job_file. destruct (prompts !! i) as [p|] eqn:Hp; [|done]. simpl.
  destruct (capture _) as [[[out err] code]|e]; [|done].
  destruct (disk_ok (pw_job w i)); [|done]. intros [= <- <-].
  split; [done|]. by eapply lookup_lt_Some.
Qed.

Lemma job_file_sound (ROOT : Path) (w : phase_world) (name : text)
    (prompts : list text) (i : nat) (p : text) :
  prompts !! i = Some p → job_sound ROOT (pw_job w i) p →
  ∃ out err code,
    capture (os_exec (pw_job w i) (command p) (str_path ROOT)) = Ok (out, err, code)
    ∧ job_file ROOT w name prompts i
      = Some (str_path (out_file_of ROOT name (Z.of_nat i + 1) (now (pw_job w i))),
              join [LF] (body_of name (Z.of_nat i + 1) p code out err)).
Proof.
  intros Hp [Hs Hd]. destruct (capture_started _ Hs) as (out & err & code & Hc).
  exists out, err, code. split; [done|].
  unfold job_file. rewrite Hp. simpl. by rewrite Hc, Hd.
Qed.

Lemma NoDup_omap_keys {A K V} (f : A → option (K * V)) (l : list A) :
  NoDup l →
  (∀ i j k v v', i ∈ l → j ∈ l → f i = Some (k, v) → f j = Some (k, v') → i = j) →
  NoDup (omap f l).*1.
Proof.
  induction l as [|a l IH]; intros Hnd Hinj; [constructor|].
  apply list.NoDup_cons in Hnd as [Ha Hnd]. simpl.
  assert (NoDup (omap f l).*1) as IH'.
  { apply IH; [done|]. intros i j k v v' Hi Hj. apply Hinj; by right. }
  destruct (f a) as [[k v]|] eqn:Ea; [|done].
  simpl. constructor; [|done].
  intros ([k' v'] & Hk & (j & Hj & Ej)%list_elem_of_omap)%list_elem_of_fmap.
  simpl in Hk. subst k'.
  assert (a = j) as -> by (eapply (Hinj a j k v v'); [left|by right|done..]).
  done.
Qed.

Lemma phase_files_key (ROOT : Path) (w : phase_world) (name : text)
    (prompts : list text) (q : text) :
  q ∈ (phase_files ROOT w name prompts).*1 →
  ∃ i, q = str_path (out_file_of ROOT name (Z.of_nat i + 1) (now (pw_job w i))).
Proof.
  intros ([k v] & -> & (i & _ & Ei)%list_elem_of_omap)%list_elem_of_fmap.
  apply job_file_key in Ei as [-> _]. by exists i.
Qed.

Lemma phase_files_NoDup (ROOT : Path) (w : phase_world) (name : text)
    (prompts : list text) :
  SLASH ∉ name → NoDup (phase_files ROOT w name prompts).*1.
Proof.
  intros Hn. apply NoDup_omap_keys; [apply NoDup_seq|].
  intros i j k v v' _ _ [-> _]%job_file_key [E _]%job_file_key.
  apply out_file_inj in E as [_ E]; [lia|done..].
Qed.

(** The files after a phase with jobs: those of its jobs, over the files
    there were. *)
Lemma run_phase_fs (ROOT : Path) (w : phase_world) (name : text)
    (prompts : list text) (st : state) :
  prompts ≠ [] → SLASH ∉ name →
  fs (run_phase ROOT w name prompts st).1
  = list_to_map (phase_files ROOT w name prompts) ∪ fs st.
Proof.
  intros Hne Hn.
  destruct (run_phase_effects ROOT w name prompts st Hne) as (st1 & _ & Hfs & ->).
  destruct (collect_frame name
    (job_future ROOT w name prompts
       <$> ends (play (pw_sched w) (replicate (length prompts) Pending))) [] st1) as [_ ->].
  rewrite Hfs, foldl_put_union. f_equal. symmetry.
  apply list_to_map_proper; [by apply phase_files_NoDup|].
  unfold phase_files. rewrite reverse_Permutation.
  by rewrite ends_play_permutation.
Qed.



(** ** The console and the files of a run *)

Lemma main_sound_values (ROOT : Path) (w : run_world) (st : state) :
  run_sound ROOT w →
  (phase1 ROOT w st).2
  = Ok (job_value ROOT (rw_phase w 0) (lit "implementation") IMPLEMENTATION_PROMPTS
          <$> ends (play (pw_sched (rw_phase w 0))
                      (replicate (length IMPLEMENTATION_PROMPTS) Pending)))
  ∧ (phase2 ROOT w st).2
    = Ok (job_value ROOT (rw_phase w 1) (lit "bugfix") BUGFIX_PROMPTS
            <$> ends (play (pw_sched (rw_phase w 1))
                        (replicate (length BUGFIX_PROMPTS) Pending)))
  ∧ (phase3 ROOT w st).2
    = Ok (job_value ROOT (rw_phase w 2) (lit "docs") DOC_PROMPTS
            <$> ends (play (pw_sched (rw_phase w 2))
                        (replicate (length DOC_PROMPTS) Pending))).
Proof.
  intros Hs.
  pose proof (Hs 0%nat _ _ eq_refl) as H1.
  pose proof (Hs 1%nat _ _ eq_refl) as H2.
  pose proof (Hs 2%nat _ _ eq_refl) as H3.
  split; [by apply run_phase_sound|]. split; by apply run_phase_sound.
Qed.

(** X8.  A run whose jobs all return prints twenty-two lines: for each
    phase in turn its announcement and one line for each of its
    results, and the tally at the end. *)
Theorem sound_run_console (ROOT : Path) (w : run_world) (st : state) :
  run_sound ROOT w →
  ∃ r1 r2 r3,
    (phase1 ROOT w st).2 = Ok r1
    ∧ (phase2 ROOT w st).2 = Ok r2
    ∧ (phase3 ROOT w st).2 = Ok r3
    ∧ console (main ROOT w st).1
      = console st
        ++ phase_line (lit "implementation") 8
           :: (completed_line (lit "implementation") <$> r1)
        ++ phase_line (lit "bugfix") 6 :: (completed_line (lit "bugfix") <$> r2)
        ++ phase_line (lit "docs") 4 :: (completed_line (lit "docs") <$> r3)
        ++ [tally_line (count_ok (r1 ++ r2 ++ r3)) 18]
    ∧ length (console (main ROOT w st).1) = (length (console st) + 22)%nat.
Proof.
  intros Hs.
  destruct (main_sound_values ROOT w st Hs) as (V1 & V2 & V3).
  pose proof (Hs 0%nat _ _ eq_refl) as S1.
  pose proof (Hs 1%nat _ _ eq_refl) as S2.
  pose proof (Hs 2%nat _ _ eq_refl) as S3.
  set (r1 := job_value ROOT (rw_phase w 0) (lit "implementation") IMPLEMENTATION_PROMPTS
               <$> ends (play (pw_sched (rw_phase w 0))
                           (replicate (length IMPLEMENTATION_PROMPTS) Pending))) in *.
  set (r2 := job_value ROOT (rw_phase w 1) (lit "bugfix") BUGFIX_PROMPTS
               <$> ends (play (pw_sched (rw_phase w 1))
                           (replicate (length BUGFIX_PROMPTS) Pending))) in *.
  set (r3 := job_value ROOT (rw_phase w 2) (lit "docs") DOC_PROMPTS
               <$> ends (play (pw_sched (rw_phase w 2))
                           (replicate (length DOC_PROMPTS) Pending))) in *.
  assert (length r1 = 8%nat) as L1
    by (unfold r1; by rewrite length_fmap, ends_play_permutation, length_seq).
  assert (length r2 = 6%nat) as L2
    by (unfold r2; by rewrite length_fmap, ends_play_permutation, length_seq).
  assert (length r3 = 4%nat) as L3
    by (unfold r3; by rewrite length_fmap, ends_play_permutation, length_seq).
  assert (length (r1 ++ r2 ++ r3) = 18%nat) as L
    by (by rewrite !length_app, L1, L2, L3).
  assert (console (main ROOT w st).1
      = console st
        ++ phase_line (lit "implementation") 8
           :: (completed_line (lit "implementation") <$> r1)
        ++ phase_line (lit "bugfix") 6 :: (completed_line (lit "bugfix") <$> r2)
        ++ phase_line (lit "docs") 4 :: (completed_line (lit "docs") <$> r3)
        ++ [tally_line (count_ok (r1 ++ r2 ++ r3)) 18]) as Hc.
  { rewrite main_spec, V1, V2, V3, L. unfold print. cbn [fst console].
    unfold phase3. rewrite run_phase_console_sound by done.
    unfold phase2. rewrite run_phase_console_sound by done.
    unfold phase1. rewrite run_phase_console_sound by done.
    fold r1 r2 r3.
    rewrite <- !(assoc_L (++)). cbn [app]. reflexivity. }
  exists r1, r2, r3. split; [done|]. split; [done|]. split; [done|]. split; [done|].
  rewrite Hc, length_app. f_equal.
  rewrite length_cons, length_app, length_fmap, L1.
  rewrite length_cons, length_app, length_fmap, L2.
  rewrite length_cons, length_app, length_fmap, L3. reflexivity.
Qed.

Lemma sound_run_console_witness :
  ∃ r1 r2 r3,
    (phase1 ex_root ex_run st0).2 = Ok r1
    ∧ (phase2 ex_root ex_run st0).2 = Ok r2
    ∧ (phase3 ex_root ex_run st0).2 = Ok r3
    ∧ console (main ex_root ex_run st0).1
      = console st0
        ++ phase_line (lit "implementation") 8
           :: (completed_line (lit "implementation") <$> r1)
        ++ phase_line (lit "bugfix") 6 :: (completed_line (lit "bugfix") <$> r2)
        ++ phase_line (lit "docs") 4 :: (completed_line (lit "docs") <$> r3)
        ++ [tally_line (count_ok (r1 ++ r2 ++ r3)) 18]
    ∧ length (console (main ex_root ex_run st0).1) = (length (console st0) + 22)%nat.
Proof.
  apply sound_run_console. intros k name prompts _ i p _. split; reflexivity.
Defined.

Lemma length_omap_total {A B} (f : A → option B) (l : list A) :
  (∀ x, x ∈ l → is_Some (f x)) → length (omap f l) = length l.
Proof.
  induction l as [|a l IH]; intros H; [done|]. simpl.
  destruct (H a) as [b ->]; [left|]. simpl. f_equal. apply IH.
  intros x Hx. apply H. by right.
Qed.

Lemma phase_files_length (ROOT : Path) (w : phase_world) (name : text)
    (prompts : list text) :
  phase_sound ROOT w prompts →
  length (phase_files ROOT w name prompts) = length prompts.
Proof.
  intros Hs. unfold phase_files. rewrite length_omap_total, length_seq; [done|].
  intros i [_ Hi]%elem_of_seq.
  destruct (lookup_lt_is_Some_2 prompts i) as [p Hp]; [lia|].
  destruct (job_file_sound ROOT w name prompts i p Hp (Hs i p Hp)) as (?&?&?&_&->).
  done.
Qed.

Ltac names_differ :=
  let E := fresh in
  intros E; vm_compute in E; discriminate E.

Lemma run_files_NoDup (ROOT : Path) (w : run_world) : NoDup (run_files ROOT w).*1.
Proof.
  assert (SLASH ∉ lit "implementation") as N1 by lit_notin.
  assert (SLASH ∉ lit "bugfix") as N2 by lit_notin.
  assert (SLASH ∉ lit "docs") as N3 by lit_notin.
  unfold run_files. rewrite !fmap_app.
  apply list.NoDup_app. split; [by apply phase_files_NoDup|]. split.
  - intros q [i ->]%phase_files_key [[j E]%phase_files_key|[j E]%phase_files_key]%elem_of_app.
    + apply out_file_inj in E as [E _]; [|done..]. revert E. names_differ.
    + apply out_file_inj in E as [E _]; [|done..]. revert E. names_differ.
  - apply list.NoDup_app. split; [by apply phase_files_NoDup|].
    split; [|by apply phase_files_NoDup].
    intros q [i ->]%phase_files_key [j E]%phase_files_key.
    apply out_file_inj in E as [E _]; [|done..]. revert E. names_differ.
Qed.

(** The files after a run whose jobs all return. *)
Lemma main_fs_sound (ROOT : Path) (w : run_world) (st : state) :
  run_sound ROOT w →
  fs (main ROOT w st).1 = list_to_map (run_files ROOT w) ∪ fs st.
Proof.
  intros Hs. destruct (main_sound_values ROOT w st Hs) as (V1 & V2 & V3).
  rewrite main_spec, V1, V2, V3. unfold print. cbn [fst fs].
  unfold phase3. rewrite run_phase_fs by (done || lit_notin).
  unfold phase2. rewrite run_phase_fs by (done || lit_notin).
  unfold phase1. rewrite run_phase_fs by (done || lit_notin).
  rewrite !(assoc_L (∪)). f_equal. rewrite <- !list_to_map_app.
  symmetry. apply list_to_map_proper; [apply run_files_NoDup|].
  unfold run_files.
  rewrite (Permutation_app_comm (phase_files ROOT (rw_phase w 0) _ _)).
  rewrite (Permutation_app_comm (phase_files ROOT (rw_phase w 1) _ _)).
  by rewrite <- (assoc_L (++)).
Qed.

(** X11.  After a run whose jobs all return, the file system is the one
    before the run with the eighteen reports put over it, each at a path
    of its own; a run that starts on an empty file system leaves exactly
    eighteen files. *)
Theorem sound_run_files (ROOT : Path) (w : run_world) (st : state) :
  run_sound ROOT w →
  fs (main ROOT w st).1 = list_to_map (run_files ROOT w) ∪ fs st
  ∧ NoDup (run_files ROOT w).*1
  ∧ length (run_files ROOT w) = 18%nat
  ∧ (fs st = ∅ → size (fs (main ROOT w st).1) = 18%nat).
Proof.
  intros Hs.
  assert (length (run_files ROOT w) = 18%nat) as L.
  { pose proof (Hs 0%nat _ _ eq_refl) as S1.
    pose proof (Hs 1%nat _ _ eq_refl) as S2.
    pose proof (Hs 2%nat _ _ eq_refl) as S3.
    unfold run_files. rewrite !length_app.
    rewrite !phase_files_length by done. done. }
  split; [by apply main_fs_sound|]. split; [apply run_files_NoDup|]. split; [done|].
  intros Hempty. rewrite main_fs_sound, Hempty, (right_id_L ∅ (∪)) by done.
  rewrite map_size_list_to_map by apply run_files_NoDup. done.
Qed.

Lemma sound_run_files_witness :
  fs (main ex_root ex_run st0).1 = list_to_map (run_files ex_root ex_run) ∪ fs st0
  ∧ NoDup (run_files ex_root ex_run).*1
  ∧ length (run_files ex_root ex_run) = 18%nat
  ∧ (fs st0 = ∅ → size (fs (main ex_root ex_run st0).1) = 18%nat).
Proof.
  apply sound_run_files. intros k name prompts _ i p _. split; reflexivity.
Defined.

(** ** The scheduler has no part in the outcome *)

Lemma count_ok_permutation (l k : list (text * Z)) : l ≡ₚ k → count_ok l = count_ok k.
Proof. intros H. rewrite !count_ok_length. by rewrite H. Qed.

Lemma count_ok_app (l k : list (text * Z)) : count_ok (l ++ k) = (count_ok l + count_ok k)%nat.
Proof. by rewrite !count_ok_length, list.filter_app, length_app. Qed.

Lemma job_value_ext (ROOT : Path) (w w' : phase_world) (name : text)
    (prompts : list text) (i : nat) :
  pw_job w i = pw_job w' i →
  job_value ROOT w name prompts i = job_value ROOT w' name prompts i.
Proof. intros H. unfold job_value, job_future. by rewrite H. Qed.

Lemma job_file_ext (ROOT : Path) (w w' : phase_world) (name : text)
    (prompts : list text) (i : nat) :
  pw_job w i = pw_job w' i →
  job_file ROOT w name prompts i = job_file ROOT w' name prompts i.
Proof. intros H. unfold job_file. by rewrite H. Qed.

Lemma phase_files_ext (ROOT : Path) (w w' : phase_world) (name : text)
    (prompts : list text) :
  (∀ i, pw_job w i = pw_job w' i) →
  phase_files ROOT w name prompts = phase_files ROOT w' name prompts.
Proof.
  intros H. unfold phase_files. induction (seq 0 (length prompts)) as [|i l IH]; [done|].
  csimpl. by rewrite (job_file_ext ROOT w w' name prompts i (H i)), IH.
Qed.

(** The count of successes of a phase, whatever the order of its
    results. *)
Lemma phase_count_ok (ROOT : Path) (w : phase_world) (name : text)
    (prompts : list text) :
  count_ok (job_value ROOT w name prompts
              <$> ends (play (pw_sched w) (replicate (length prompts) Pending)))
  = count_ok (job_value ROOT w name prompts <$> seq 0 (length prompts)).
Proof. apply count_ok_permutation. by rewrite ends_play_permutation. Qed.

Lemma phase_count_ok_ext (ROOT : Path) (w w' : phase_world) (name : text)
    (prompts : list text) :
  (∀ i, pw_job w i = pw_job w' i) →
  count_ok (job_value ROOT w name prompts
              <$> ends (play (pw_sched w) (replicate (length prompts) Pending)))
  = count_ok (job_value ROOT w' name prompts
                <$> ends (play (pw_sched w') (replicate (length prompts) Pending))).
Proof.
  intros H. rewrite !phase_count_ok. f_equal.
  apply list_fmap_ext. intros _ i _. by apply job_value_ext.
Qed.

Lemma run_sound_ext (ROOT : Path) (w w' : run_world) :
  same_jobs w w' → run_sound ROOT w → run_sound ROOT w'.
Proof.
  intros [_ H] Hs k name prompts Hk i p Hp. unfold job_sound.
  rewrite <- (H k i). by apply (Hs k name prompts Hk i p Hp).
Qed.

(** X10.  The outcome of a run whose jobs all return does not depend on
    the order in which the job threads are scheduled: two runs in which
    the jobs find the same leave the same files, end alike and print
    the same tally. *)
Theorem schedule_independence (ROOT : Path) (w w' : run_world) (st : state) :
  same_jobs w w' → run_sound ROOT w →
  fs (script ROOT w st).1 = fs (script ROOT w' st).1
  ∧ (script ROOT w st).2 = (script ROOT w' st).2
  ∧ list.last (console (script ROOT w st).1) = list.last (console (script ROOT w' st).1).
Proof.
  intros Hj Hs. pose proof (run_sound_ext ROOT w w' Hj Hs) as Hs'.
  destruct Hj as [Hm Hj]. rewrite !script_spec, <- Hm.
  destruct (rw_mkdir w); [|done].
  assert (run_files ROOT w = run_files ROOT w') as Hf.
  { unfold run_files.
    rewrite (phase_files_ext ROOT (rw_phase w 0) (rw_phase w' 0)) by done.
    rewrite (phase_files_ext ROOT (rw_phase w 1) (rw_phase w' 1)) by done.
    by rewrite (phase_files_ext ROOT (rw_phase w 2) (rw_phase w' 2)) by done. }
  split; [by rewrite !main_fs_sound, Hf|].
  destruct (main_sound_values ROOT w st Hs) as (V1 & V2 & V3).
  destruct (main_sound_values ROOT w' st Hs') as (V1' & V2' & V3').
  rewrite !main_spec, V1, V2, V3, V1', V2', V3'. unfold print. cbn [fst snd console].
  split; [done|]. rewrite !last_snoc. f_equal.
  assert (∀ (wp : phase_world) name prompts,
    length (job_value ROOT wp name prompts
              <$> ends (play (pw_sched wp) (replicate (length prompts) Pending)))
    = length prompts) as Hlen
    by (intros; by rewrite length_fmap, ends_play_permutation, length_seq).
  match goal with
  | |- tally_line (count_ok ?a) (length ?a) = tally_line (count_ok ?b) (length ?b) =>
      assert (count_ok a = count_ok b) as Hcount;
      [|assert (length a = length b) as Hlength; [|by rewrite Hcount, Hlength]]
  end.
  - rewrite !count_ok_app.
    rewrite (phase_count_ok_ext ROOT (rw_phase w 0) (rw_phase w' 0)) by done.
    rewrite (phase_count_ok_ext ROOT (rw_phase w 1) (rw_phase w' 1)) by done.
    by rewrite (phase_count_ok_ext ROOT (rw_phase w 2) (rw_phase w' 2)) by done.
  - by rewrite !length_app, !Hlen.
Qed.

Lemma schedule_independence_witness :
  fs (script ex_root ex_run st0).1 = fs (script ex_root ex_run_other st0).1
  ∧ (script ex_root ex_run st0).2 = (script ex_root ex_run_other st0).2
  ∧ list.last (console (script ex_root ex_run st0).1)
    = list.last (console (script ex_root ex_run_other st0).1).
Proof.
  apply schedule_independence.
  - split; reflexivity.
  - intros k name prompts _ i p _. split; reflexivity.
Defined.

(** ** Names, indices and trimming *)

(** X12.  The file name of an artifact tells the phase and the index of
    its job, for every phase name and whatever the clock shows: two jobs
    that differ in the phase name or in the index have different file
    names. *)
Theorem artifact_names_distinct (phase1 phase2 : text) (idx1 idx2 : Z)
    (t1 t2 : datetime) :
  (phase1, idx1) ≠ (phase2, idx2) →
  artifact_name phase1 idx1 (strftime_stamp t1)
  ≠ artifact_name phase2 idx2 (strftime_stamp t2).
Proof. intros Hne E. by apply artifact_name_inj in E as [-> ->]. Qed.

Lemma artifact_names_distinct_witness :
  artifact_name (lit "a/b") 1 (strftime_stamp ex_time)
  ≠ artifact_name (lit "a/./b") 1 (strftime_stamp ex_time).
Proof.
  apply artifact_names_distinct. intros E. vm_compute in E. discriminate E.
Defined.

Lemma digits_short (n : N) : n < 100 → (length (digits n) ≤ 2)%nat.
Proof.
  intros H. rewrite <- (N2Nat.id n).
  assert (N.to_nat n < 100)%nat as Hk by lia. clear H.
  generalize dependent (N.to_nat n). intros k Hk.
  do 100 (destruct k as [|k]; [vm_compute; lia|]). lia.
Qed.

(** X14.  The zero-padded index keeps the index: the text of
    [f"{idx:02d}"] stands for [idx], it has at least two characters, and
    exactly two for an index from 0 to 99; a longer index widens the
    field and is never cut. *)
Theorem index_format (idx : Z) :
  fmt_value (fmt_0d 2 idx) = idx
  ∧ (2 ≤ length (fmt_0d 2 idx))%nat
  ∧ ((0 ≤ idx < 100)%Z → length (fmt_0d 2 idx) = 2%nat)
  ∧ ((100 ≤ idx)%Z → fmt_0d 2 idx = str_int idx).
Proof.
  split; [apply fmt_value_fmt_0d|].
  pose proof (digits_nonempty (Z.abs_N idx)) as Hne.
  assert (0 < length (digits (Z.abs_N idx)))%nat as Hpos
    by (destruct (digits (Z.abs_N idx)); [done|simpl; lia]).
  unfold fmt_0d, str_int, zfill. destruct (Z.ltb_spec idx 0) as [Hz|Hz].
  - split; [|split; [lia|lia]].
    simpl. rewrite length_app, length_replicate. lia.
  - split; [|split].
    + rewrite length_app, length_replicate. lia.
    + intros H. rewrite length_app, length_replicate.
      assert (length (digits (Z.abs_N idx)) ≤ 2)%nat by (apply digits_short; lia). lia.
    + intros H.
      assert (¬ (length (digits (Z.abs_N idx)) ≤ 1)%nat) as Hlen.
      { intros Hl. pose proof (parse_nat_digits (Z.abs_N idx)) as Hp.
        pose proof (digits_digit (Z.abs_N idx)) as Hd.
        destruct (digits (Z.abs_N idx)) as [|c [|c' r]]; [done| |simpl in Hl; lia].
        inversion Hd as [|? ? Hc _]; subst. unfold is_digit in Hc.
        apply andb_true_iff in Hc as [Hc1%N.leb_le Hc2%N.leb_le].
        unfold parse_nat in Hp. simpl in Hp. lia. }
      replace (2 - length (digits (Z.abs_N idx)))%nat with 0%nat by lia. done.
Qed.

Lemma lstrip_head (s : text) (c : N) : head (lstrip s) = Some c → isspace c = false.
Proof.
  induction s as [|x s IH]; simpl; [done|].
  destruct (isspace x) eqn:E; [done|]. simpl. by intros [= <-].
Qed.

Lemma lstrip_fixed (s : text) :
  (∀ c, head s = Some c → isspace c = false) → lstrip s = s.
Proof. destruct s as [|x s]; [done|]. intros H. simpl. by rewrite (H x). Qed.

Lemma lstrip_suffix (s : text) : lstrip s `suffix_of` s.
Proof.
  induction s as [|x s IH]; simpl; [done|].
  destruct (isspace x); [by apply suffix_cons_r | done].
Qed.

Lemma rstrip_prefix (s : text) : rstrip s `prefix_of` s.
Proof.
  unfold rstrip. apply prefix_suffix_reverse.
  rewrite reverse_involutive. apply lstrip_suffix.
Qed.

Lemma rstrip_idem (s : text) : rstrip (rstrip s) = rstrip s.
Proof.
  unfold rstrip. rewrite reverse_involutive. f_equal.
  apply lstrip_fixed, lstrip_head.
Qed.

Lemma rstrip_last (s : text) (c : N) : list.last (rstrip s) = Some c → isspace c = false.
Proof. unfold rstrip. rewrite last_reverse. apply lstrip_head. Qed.

Lemma strip_head (s : text) (c : N) : head (strip s) = Some c → isspace c = false.
Proof.
  unfold strip. destruct (rstrip_prefix (lstrip s)) as [k Hk].
  intros H. apply (lstrip_head s). rewrite Hk, head_app, H. done.
Qed.

Lemma strip_idem (s : text) : strip (strip s) = strip s.
Proof.
  unfold strip at 1. rewrite (lstrip_fixed (strip s)) by apply strip_head.
  unfold strip. apply rstrip_idem.
Qed.

(** X13.  Trimming a second time changes nothing, and a trimmed text
    neither begins nor ends with white space. *)
Theorem strip_trims (s : text) :
  strip (strip s) = strip s
  ∧ (∀ c, head (strip s) = Some c → isspace c = false)
  ∧ (∀ c, list.last (strip s) = Some c → isspace c = false).
Proof.
  split; [apply strip_idem|]. split; [apply strip_head|].
  intros c. unfold strip. apply rstrip_last.
Qed.

(** X15.  The report of a job depends on the captured texts through
    their trimmed forms only: the report of the trimmed texts is the
    report of the texts. *)
Theorem report_of_trimmed (phase : text) (idx : Z) (prompt : text) (code : Z)
    (out err : text) :
  body_of phase idx prompt code (strip out) (strip err)
  = body_of phase idx prompt code out err.
Proof. unfold body_of. by rewrite !strip_idem. Qed.

(** ** The decoded text *)

Lemma shiftr_split (c k : N) :
  ∃ r, c = 2 ^ k * N.shiftr c k + r ∧ r < 2 ^ k.
Proof.
  exists (c mod 2 ^ k). rewrite N.shiftr_div_pow2. split.
  - apply N.div_mod. by apply N.pow_nonzero.
  - apply N.mod_lt. by apply N.pow_nonzero.
Qed.

Lemma scalar_low (c : N) :
  N.shiftr c 16 = 0 → N.shiftr c 11 ≠ 27 → scalar c = true.
Proof.
  destruct (shiftr_split c 16) as (r16 & E16 & L16).
  destruct (shiftr_split c 11) as (r11 & E11 & L11).
  change (2 ^ 16) with 65536 in *. change (2 ^ 11) with 2048 in *.
  intros H16 H11. unfold scalar.
  apply andb_true_intro. split.
  - apply N.ltb_lt. lia.
  - apply negb_true_iff, andb_false_iff.
    destruct (N.leb_spec 0xD800 c); [|by left]. right. apply N.leb_gt. lia.
Qed.

Lemma scalar_high (c : N) :
  0 < N.shiftr c 16 < 17 → scalar c = true.
Proof.
  destruct (shiftr_split c 16) as (r16 & E16 & L16).
  change (2 ^ 16) with 65536 in *. intros H. unfold scalar.
  apply andb_true_intro. split.
  - apply N.ltb_lt. lia.
  - apply negb_true_iff, andb_false_iff. right. apply N.leb_gt. lia.
Qed.

Lemma in_all_bytes (b : byte) : b ∈ all_bytes.
Proof.
  apply list_elem_of_omap. exists (to_N b). split; [|apply of_to_N].
  apply list_elem_of_fmap. exists (N.to_nat (to_N b)). split; [lia|].
  apply elem_of_seq. pose proof (to_N_bounded b). lia.
Qed.

Lemma forallb_bytes (f : byte → bool) (b : byte) :
  forallb f all_bytes = true → f b = true.
Proof.
  intros H. rewrite forallb_forall in H. apply H, list_elem_of_In, in_all_bytes.
Qed.

Lemma check_cont_true : check_cont = true.
Proof. by vm_compute. Qed.
Lemma check2_true : check2 = true.
Proof. by vm_compute. Qed.
Lemma check3_true : check3 = true.
Proof. by vm_compute. Qed.
Lemma check4_true : check4 = true.
Proof. by vm_compute. Qed.

Lemma cont_bits_high (b : byte) :
  N.shiftr (cont_bits b) 11 = 0 ∧ N.shiftr (cont_bits b) 16 = 0
  ∧ N.shiftr (N.shiftl (cont_bits b) 6) 16 = 0.
Proof.
  pose proof (forallb_bytes _ b check_cont_true) as H. cbv beta in H.
  apply andb_true_iff in H as [[H1%N.eqb_eq H2%N.eqb_eq]%andb_true_iff H3%N.eqb_eq].
  done.
Qed.

Lemma one_byte_scalar (c : N) : (c <? 0x80) = true → scalar c = true.
Proof.
  intros H%N.ltb_lt. unfold scalar. apply andb_true_intro. split.
  - apply N.ltb_lt. lia.
  - apply negb_true_iff, andb_false_iff. left. apply N.leb_gt. lia.
Qed.

Lemma two_byte_scalar (b0 b1 : byte) :
  scalar (N.lor (N.shiftl (N.land (to_N b0) 0x1F) 6) (cont_bits b1)) = true.
Proof.
  pose proof (forallb_bytes _ b0 check2_true) as H. cbv beta in H.
  apply andb_true_iff in H as [H16%N.eqb_eq H11%N.eqb_eq].
  destruct (cont_bits_high b1) as (C11 & C16 & _).
  apply scalar_low; rewrite N.shiftr_lor.
  - by rewrite H16, C16.
  - by rewrite H11, C11.
Qed.

Lemma three_byte_scalar (b0 b1 b2 : byte) :
  (to_N b0 <? 0xE0) = false → (to_N b0 <? 0xF0) = true →
  second3_ok (to_N b0) b1 = true →
  scalar (N.lor (N.shiftl (N.land (to_N b0) 0x0F) 12)
            (N.lor (N.shiftl (cont_bits b1) 6) (cont_bits b2))) = true.
Proof.
  intros H1 H2 H3.
  pose proof (forallb_bytes _ b1 (forallb_bytes _ b0 check3_true)) as H. cbv beta in H.
  rewrite H1, H2, H3 in H.
  apply andb_true_iff in H as [H16%N.eqb_eq H11%negb_true_iff%N.eqb_neq].
  destruct (cont_bits_high b2) as (C11 & C16 & _).
  unfold head3 in *.
  apply scalar_low; rewrite !N.shiftr_lor.
  - by rewrite C16, N.lor_0_r.
  - by rewrite C11, N.lor_0_r.
Qed.

Lemma four_byte_scalar (b0 b1 b2 b3 : byte) :
  (to_N b0 <? 0xF0) = false → (to_N b0 <? 0xF5) = true →
  second4_ok (to_N b0) b1 = true →
  scalar (N.lor (N.shiftl (N.land (to_N b0) 0x07) 18)
            (N.lor (N.shiftl (cont_bits b1) 12)
               (N.lor (N.shiftl (cont_bits b2) 6) (cont_bits b3)))) = true.
Proof.
  intros H1 H2 H3.
  pose proof (forallb_bytes _ b1 (forallb_bytes _ b0 check4_true)) as H. cbv beta in H.
  rewrite H1, H2, H3 in H.
  apply andb_true_iff in H as [Hlo%N.ltb_lt Hhi%N.ltb_lt].
  destruct (cont_bits_high b2) as (_ & _ & C2).
  destruct (cont_bits_high b3) as (_ & C3 & _).
  unfold head4 in *.
  apply scalar_high. rewrite !N.shiftr_lor, C2, C3, !N.lor_0_r. done.
Qed.

Lemma utf8_decode_scalar_upto (errors : handler) (n : nat) (s : bytes) (t : text) :
  (length s ≤ n)%nat → utf8_decode errors s = Ok t → sound_text s t.
Proof.
  revert s t. induction n as [|n IH]; intros [|b0 s1] t Hlen;
    try (intros [= <-]; split; [constructor | simpl; lia]);
    simpl in Hlen; [lia|].
  rewrite utf8_decode_cons. cbv zeta.
  decoder_cases_eq;
    first
      [ (* the end of the input inside a sequence *)
        destruct errors; [discriminate|];
        intros [= <-]; split; [by repeat constructor | simpl; lia]
      | (* a character *)
        match goal with
        | |- rmap _ (utf8_decode _ ?x) = _ → _ =>
            destruct (utf8_decode errors x) as [t'|] eqn:E; [|discriminate];
            intros [= <-];
            destruct (IH x t' ltac:(simpl in *; lia) E) as [F L];
            split; [constructor; [|exact F] | simpl in *; lia];
            first [ by apply one_byte_scalar | by apply two_byte_scalar
                  | by apply three_byte_scalar | by apply four_byte_scalar ]
        end
      | (* a malformed sequence *)
        destruct errors; [discriminate|];
        match goal with
        | |- on_error _ (utf8_decode _ ?x) = _ → _ =>
            unfold on_error;
            destruct (utf8_decode Replace x) as [t'|] eqn:E; [|discriminate];
            intros [= <-];
            destruct (IH x t' ltac:(simpl in *; lia) E) as [F L];
            split; [by constructor | simpl in *; lia]
        end ].
Qed.

(** X3.  The text decoded from captured bytes holds Unicode scalar
    values only, never a surrogate or a value beyond U+10FFFF, so that
    it can be written as UTF-8, and it is no longer than the bytes. *)
Theorem decoded_text_is_scalar (s : bytes) :
  ∃ t, utf8_decode Replace s = Ok t
       ∧ Forall (λ c, scalar c = true) t
       ∧ (length t ≤ length s)%nat.
Proof.
  destruct (utf8_decode_lenient s) as ([t Ht] & _).
  exists t. split; [done|]. by apply (utf8_decode_scalar_upto Replace (length s)).
Qed.
